(** * gz-sim: system capability records, component identities, sensor views

    A shallow embedding of
    - [src/SystemInternal.hh]: the record that holds one attached system,
      with its two constructors (system loaded from a plugin, system given
      by shared pointer);
    - [include/gz/sim/components/LinearVelocityCmd.hh]: two component types
      over the same value type, registered under two names;
    - [include/ignition/gazebo/Sensor.hh]: the sensor wrapper over the
      entity-component manager;
    - [test/plugins/TestSystem.cc], [src/systems/shader_param/ShaderParam.cc]:
      the plugin registrations of two systems;
    - [src/systems/shader_param/ShaderParam.cc]: [Configure], [PreUpdate]
      and, of [OnUpdate], the search for the visual and the loops that set
      the shader params;
    - [src/gui/plugins/view_angle/ViewAngle.cc]: the selection events, the
      view control requests, the move-to-model service and [OnComplete];
    - [src/gui/plugins/shapes/Shapes.cc]: [OnMode].

    Pointers are modelled as [option]; objects by their address and the
    interfaces of their dynamic class; calls that the constructors make on
    the plugin or on the pointer are logged in a trace, so that what a
    constructor probes, and how often, can be stated. *)

From Stdlib Require Import Floats.
From stdpp Require Import gmap strings list fin_maps.

Open Scope N_scope.

(** ** Interfaces, objects and pointers *)

(** The interfaces of [ignition/gazebo/System.hh] that [SystemInternal]
    asks for. *)
Inductive Interface :=
| System
| ISystemConfigure
| ISystemConfigureParameters
| ISystemPreUpdate
| ISystemUpdate
| ISystemPostUpdate.

#[global] Instance Interface_eq_dec : EqDecision Interface.
Proof. solve_decision. Defined.

(** The five lifecycle hooks, each with the interface that carries it and
    (below) the data member of [SystemInternal] that holds it. *)
Inductive Hook := Configure | ConfigureParameters | PreUpdate | Update | PostUpdate.

#[global] Instance Hook_eq_dec : EqDecision Hook.
Proof. solve_decision. Defined.

Definition all_hooks : list Hook :=
  [Configure; ConfigureParameters; PreUpdate; Update; PostUpdate].

Definition hook_interface (h : Hook) : Interface :=
  match h with
  | Configure => ISystemConfigure
  | ConfigureParameters => ISystemConfigureParameters
  | PreUpdate => ISystemPreUpdate
  | Update => ISystemUpdate
  | PostUpdate => ISystemPostUpdate
  end.

(** [Entity] is a 64-bit identifier; [kNullEntity], declared in
    [Entity.hh], is 0. *)
Definition Entity := N.
Definition kNullEntity : Entity := 0.

(** An instantiated system: where it lives and which of the interfaces
    above its dynamic class derives from.  A [std::shared_ptr<System>] can
    only hold an object that is a [System], so [System] itself is not
    listed in [bases]. *)
Record Object := {
  address : N;
  bases : list Interface
}.

(** A raw interface pointer [I *]: the object it points into and the
    interface [I] it is typed at.  [nullptr] is [None]. *)
Record Ptr := {
  pointee : N;
  through : Interface
}.

#[global] Instance Ptr_eq_dec : EqDecision Ptr.
Proof. solve_decision. Defined.

(** [std::shared_ptr<System>]. *)
Definition SharedPtr := option Object.

(** A plugin as the plugin loader hands it out: the instance it manages
    and the interfaces it was registered with, that is the list after the
    class name in [IGNITION_ADD_PLUGIN(Class, Interface...)].  The empty
    [SystemPluginPtr] is [None]. *)
Record Plugin := {
  plugin_instance : Object;
  plugin_interfaces : list Interface
}.

Definition SystemPluginPtr := option Plugin.

(** [sdf::Element] is kept as its text; [EntityQueryCallback], declared
    with the entity-component manager, is kept as an opaque handle. *)
Definition SdfElement := string.
Inductive EntityQueryCallback := QueryCallback (id : N).

(** ** The trace of calls made on a unit *)

Inductive Event :=
| EvQueryInterface (i : Interface)
| EvDynamicCast (i : Interface)
| EvHook (h : Hook) (unit : N) (entity : Entity) (payload : option SdfElement).

#[global] Instance Event_eq_dec : EqDecision Event.
Proof. solve_decision. Defined.

Definition Trace (A : Type) : Type := A * list Event.

#[global] Instance Trace_ret : MRet Trace := λ A a, (a, []).
#[global] Instance Trace_bind : MBind Trace :=
  λ A B k m, let r := k m.1 in (r.1, m.2 ++ r.2).

Definition emit {A} (e : Event) (a : A) : Trace A := (a, [e]).

Definition is_probe (h : Hook) (e : Event) : bool :=
  match e with
  | EvQueryInterface i | EvDynamicCast i => bool_decide (i = hook_interface h)
  | EvHook _ _ _ _ => false
  end.

Definition is_any_probe (e : Event) : bool :=
  match e with
  | EvQueryInterface _ | EvDynamicCast _ => true
  | EvHook _ _ _ _ => false
  end.

Definition is_hook_call (e : Event) : bool :=
  match e with
  | EvHook _ _ _ _ => true
  | _ => false
  end.

Definition count (f : Event → bool) (t : list Event) : nat :=
  length (filter (λ e, f e = true) t).

(** ** The two probes *)

(** [plugin->QueryInterface<I>()]: the instance seen through [I] when the
    plugin holds one and was registered with [I], [nullptr] otherwise; on
    the empty plugin pointer it answers [nullptr]. *)
Definition QueryInterface (i : Interface) (p : SystemPluginPtr) : Trace (option Ptr) :=
  emit (EvQueryInterface i)
    match p with
    | Some pl =>
        if bool_decide (i ∈ plugin_interfaces pl)
        then Some {| pointee := address (plugin_instance pl); through := i |}
        else None
    | None => None
    end.

(** [_system.get()]. *)
Definition get (s : SharedPtr) : option Ptr :=
  match s with
  | Some o => Some {| pointee := address o; through := System |}
  | None => None
  end.

(** [dynamic_cast<I *>(_system.get())] on a [System *]: the cast to
    [System] itself always succeeds, a cross cast succeeds when the dynamic
    class of the object derives from [I]; null stays null.  The cast is on
    pointers, so a failed cast is a null pointer, not an exception. *)
Definition dynamic_cast (i : Interface) (s : SharedPtr) : Trace (option Ptr) :=
  emit (EvDynamicCast i)
    match s with
    | Some o =>
        if bool_decide (i = System ∨ i ∈ bases o)
        then Some {| pointee := address o; through := i |}
        else None
    | None => None
    end.

(** ** [class SystemInternal] *)

Record SystemInternal := {
  systemPlugin : SystemPluginPtr;
  systemShared : SharedPtr;
  system : option Ptr;
  configure : option Ptr;
  configureParameters : option Ptr;
  preupdate : option Ptr;
  update : option Ptr;
  postupdate : option Ptr;
  parentEntity : Entity;
  configureSdf : option SdfElement;
  updates : list EntityQueryCallback
}.

(** [explicit SystemInternal(SystemPluginPtr _systemPlugin, Entity _entity)].
    The members are initialised in declaration order, so [systemPlugin]
    already holds the moved-in plugin when it is queried.  Members without
    an initialiser in the list take their default member initialiser. *)
Definition SystemInternal_plugin (_systemPlugin : SystemPluginPtr) (_entity : Entity)
  : Trace SystemInternal :=
  let systemPlugin_ := _systemPlugin in
  system_ ← QueryInterface System systemPlugin_;
  configure_ ← QueryInterface ISystemConfigure systemPlugin_;
  configureParameters_ ← QueryInterface ISystemConfigureParameters systemPlugin_;
  preupdate_ ← QueryInterface ISystemPreUpdate systemPlugin_;
  update_ ← QueryInterface ISystemUpdate systemPlugin_;
  postupdate_ ← QueryInterface ISystemPostUpdate systemPlugin_;
  mret {| systemPlugin := systemPlugin_;
          systemShared := None;
          system := system_;
          configure := configure_;
          configureParameters := configureParameters_;
          preupdate := preupdate_;
          update := update_;
          postupdate := postupdate_;
          parentEntity := _entity;
          configureSdf := None;
          updates := [] |}.

(** [explicit SystemInternal(const std::shared_ptr<System> &_system,
    Entity _entity)]. *)
Definition SystemInternal_shared (_system : SharedPtr) (_entity : Entity)
  : Trace SystemInternal :=
  let system_ := get _system in
  configure_ ← dynamic_cast ISystemConfigure _system;
  configureParameters_ ← dynamic_cast ISystemConfigureParameters _system;
  preupdate_ ← dynamic_cast ISystemPreUpdate _system;
  update_ ← dynamic_cast ISystemUpdate _system;
  postupdate_ ← dynamic_cast ISystemPostUpdate _system;
  mret {| systemPlugin := None;
          systemShared := _system;
          system := system_;
          configure := configure_;
          configureParameters := configureParameters_;
          preupdate := preupdate_;
          update := update_;
          postupdate := postupdate_;
          parentEntity := _entity;
          configureSdf := None;
          updates := [] |}.

(** The two ways a unit reaches a record. *)
Inductive UnitHandle :=
| FromPlugin (p : SystemPluginPtr)
| FromPointer (s : SharedPtr).

Definition construct (u : UnitHandle) (e : Entity) : Trace SystemInternal :=
  match u with
  | FromPlugin p => SystemInternal_plugin p e
  | FromPointer s => SystemInternal_shared s e
  end.

(** The hook table of a record: one data member per hook. *)
Definition hook_entry (r : SystemInternal) (h : Hook) : option Ptr :=
  match h with
  | Configure => configure r
  | ConfigureParameters => configureParameters r
  | PreUpdate => preupdate r
  | Update => update r
  | PostUpdate => postupdate r
  end.

Definition present (r : SystemInternal) (h : Hook) : bool :=
  match hook_entry r h with Some _ => true | None => false end.

(** The hooks a unit implements, as seen through its handle: for a plugin,
    the hook interfaces it was registered with; for a pointer, the hook
    interfaces the object's class derives from.  Behind an empty handle
    there is no unit. *)
Definition implements (u : UnitHandle) (h : Hook) : bool :=
  match u with
  | FromPlugin (Some pl) => bool_decide (hook_interface h ∈ plugin_interfaces pl)
  | FromPointer (Some o) => bool_decide (hook_interface h ∈ bases o)
  | _ => false
  end.

(** The object a handle refers to. *)
Definition unit_of (u : UnitHandle) : option Object :=
  match u with
  | FromPlugin p => plugin_instance <$> p
  | FromPointer s => s
  end.

(** A non-null handle of a unit: a shared pointer that is not null, or a
    plugin pointer that is not empty and whose plugin is a system, that is,
    was registered with [System] (the constructor's parameter is
    documented as a system loaded from a plugin). *)
Definition unit_handle (u : UnitHandle) : bool :=
  match u with
  | FromPlugin (Some pl) => bool_decide (System ∈ plugin_interfaces pl)
  | FromPointer (Some _) => true
  | _ => false
  end.

(** ** After construction

    [SystemInternal] has no member function besides its two constructors
    (SystemInternal.hh:38-117), so the class itself never resolves a hook
    again.  Every data member is declared [public] and none is [const]
    (lines 77-116): whoever holds a record reads the members and can
    assign them.  [Use] lists these accesses for the hook table and for the
    two members that no constructor initialises from its arguments,
    [configureSdf] (the cached sdf) and [updates] (the vector of queries
    and callbacks). *)
Inductive Use :=
| ReadHook (h : Hook)
| AssignHook (h : Hook) (q : option Ptr)
| StoreConfigureSdf (sdf : option SdfElement)
| PushUpdate (cb : EntityQueryCallback).

Definition set_configureSdf (sdf : option SdfElement) (r : SystemInternal) : SystemInternal :=
  {| systemPlugin := systemPlugin r;
     systemShared := systemShared r;
     system := system r;
     configure := configure r;
     configureParameters := configureParameters r;
     preupdate := preupdate r;
     update := update r;
     postupdate := postupdate r;
     parentEntity := parentEntity r;
     configureSdf := sdf;
     updates := updates r |}.

Definition push_update (cb : EntityQueryCallback) (r : SystemInternal) : SystemInternal :=
  {| systemPlugin := systemPlugin r;
     systemShared := systemShared r;
     system := system r;
     configure := configure r;
     configureParameters := configureParameters r;
     preupdate := preupdate r;
     update := update r;
     postupdate := postupdate r;
     parentEntity := parentEntity r;
     configureSdf := configureSdf r;
     updates := updates r ++ [cb] |}.

(** The assignment of a pointer to the data member of a hook, as in
    [record.update = q]. *)
Definition assign_hook (h : Hook) (q : option Ptr) (r : SystemInternal) : SystemInternal :=
  {| systemPlugin := systemPlugin r;
     systemShared := systemShared r;
     system := system r;
     configure := if bool_decide (h = Configure) then q else configure r;
     configureParameters :=
       if bool_decide (h = ConfigureParameters) then q else configureParameters r;
     preupdate := if bool_decide (h = PreUpdate) then q else preupdate r;
     update := if bool_decide (h = Update) then q else update r;
     postupdate := if bool_decide (h = PostUpdate) then q else postupdate r;
     parentEntity := parentEntity r;
     configureSdf := configureSdf r;
     updates := updates r |}.

(** A run of accesses to a record: the record at the end and, in order,
    what each read of the hook table returned. *)
Fixpoint run (us : list Use) (r : SystemInternal)
  : SystemInternal * list (Hook * option Ptr) :=
  match us with
  | [] => (r, [])
  | ReadHook h :: us' =>
      let v := hook_entry r h in
      let rest := run us' r in
      (rest.1, (h, v) :: rest.2)
  | AssignHook h q :: us' => run us' (assign_hook h q r)
  | StoreConfigureSdf sdf :: us' => run us' (set_configureSdf sdf r)
  | PushUpdate cb :: us' => run us' (push_update cb r)
  end.

(** What a run of accesses assigns to the member of a hook, in order. *)
Definition assigned (h : Hook) (us : list Use) : list (option Ptr) :=
  omap (λ u, match u with
             | AssignHook h' q => if bool_decide (h' = h) then Some q else None
             | _ => None
             end) us.

(** ** The plugin registrations in the sources *)

(** [IGNITION_ADD_PLUGIN(TestSystem, System)]. *)
Definition TestSystem_interfaces : list Interface := [System].

(** [IGNITION_ADD_PLUGIN(ShaderParam, ignition::gazebo::System,
    ShaderParam::ISystemConfigure, ShaderParam::ISystemPreUpdate)]. *)
Definition ShaderParam_interfaces : list Interface :=
  [System; ISystemConfigure; ISystemPreUpdate].

(** The plugin of TestSystem.cc, instantiated at address [a]: the class
    constructs its [System] base and nothing else. *)
Definition TestSystem_plugin (a : N) : SystemPluginPtr :=
  Some {| plugin_instance := {| address := a; bases := [] |};
          plugin_interfaces := TestSystem_interfaces |}.

(** A [ShaderParam] at address [a]: ShaderParam.cc defines its
    [Configure] and [PreUpdate], and names [ShaderParam::ISystemConfigure]
    and [ShaderParam::ISystemPreUpdate] as its bases. *)
Definition ShaderParam_object (a : N) : Object :=
  {| address := a; bases := [ISystemConfigure; ISystemPreUpdate] |}.

Definition ShaderParam_plugin (a : N) : SystemPluginPtr :=
  Some {| plugin_instance := ShaderParam_object a;
          plugin_interfaces := ShaderParam_interfaces |}.

(** A unit whose class derives from the interfaces of the given hooks, and
    the plugin that registers it with [System] and those interfaces. *)
Definition unit_with (hs : list Hook) (a : N) : Object :=
  {| address := a; bases := hook_interface <$> hs |}.

Definition plugin_with (hs : list Hook) (a : N) : SystemPluginPtr :=
  Some {| plugin_instance := unit_with hs a;
          plugin_interfaces := System :: (hook_interface <$> hs) |}.

(** ** Component types

    [Component<DataType, Identifier>]: a value type and a tag class that
    tells apart component types over the same value type. *)

(** The value types of the components named in the sources:
    [math::Vector3d] (LinearVelocityCmd.hh), and the result types of the
    accessors of Sensor.hh.  [NoData] is the value type of a marker. *)
Inductive ValueType := Vector3d_t | String_t | Pose3d_t | Entity_t | NoData_t.

#[global] Instance ValueType_eq_dec : EqDecision ValueType.
Proof. solve_decision. Defined.

#[global] Instance ValueType_countable : Countable ValueType.
Proof.
  refine (inj_countable'
    (λ t, match t with
          | Vector3d_t => 0%nat | String_t => 1%nat | Pose3d_t => 2%nat
          | Entity_t => 3%nat | NoData_t => 4%nat end)
    (λ n, match n with
          | 0%nat => Vector3d_t | 1%nat => String_t | 2%nat => Pose3d_t
          | 3%nat => Entity_t | _ => NoData_t end) _).
  by intros [].
Defined.

Record ComponentType := {
  valueType : ValueType;
  discriminator : string
}.

#[global] Instance ComponentType_eq_dec : EqDecision ComponentType.
Proof. solve_decision. Defined.

#[global] Instance ComponentType_countable : Countable ComponentType.
Proof.
  refine (inj_countable'
    (λ c, (valueType c, discriminator c))
    (λ p, {| valueType := p.1; discriminator := p.2 |}) _).
  by intros [].
Defined.

(** [using LinearVelocityCmd = Component<math::Vector3d,
    class LinearVelocityCmdTag>] and its registered name. *)
Definition LinearVelocityCmd : ComponentType :=
  {| valueType := Vector3d_t; discriminator := "LinearVelocityCmdTag" |}.
Definition LinearVelocityCmd_name : string :=
  "ign_gazebo_components.LinearVelocityCmd".

(** [using WorldLinearVelocityCmd = Component<math::Vector3d,
    class WorldLinearVelocityCmdTag>] and its registered name. *)
Definition WorldLinearVelocityCmd : ComponentType :=
  {| valueType := Vector3d_t; discriminator := "WorldLinearVelocityCmdTag" |}.
Definition WorldLinearVelocityCmd_name : string :=
  "ign_gazebo_components.WorldLinearVelocityCmd".

(** Values. *)
Record Vector3d := { vx : float; vy : float; vz : float }.
Record Quaterniond := { qw : float; qx : float; qy : float; qz : float }.
Record Pose3d := { pos : Vector3d; rot : Quaterniond }.

Inductive Data :=
| DVector3d (v : Vector3d)
| DString (s : string)
| DPose3d (p : Pose3d)
| DEntity (e : Entity)
| DNoData.

Definition Vector3d_Zero : Vector3d := {| vx := 0; vy := 0; vz := 0 |}.
Definition Quaterniond_Identity : Quaterniond := {| qw := 1; qx := 0; qy := 0; qz := 0 |}.

Definition default_value (t : ValueType) : Data :=
  match t with
  | Vector3d_t => DVector3d Vector3d_Zero
  | String_t => DString ""
  | Pose3d_t => DPose3d {| pos := Vector3d_Zero; rot := Quaterniond_Identity |}
  | Entity_t => DEntity kNullEntity
  | NoData_t => DNoData
  end.

(** ** The component registry *)

Inductive RegistryError := DuplicateRegistration | UnknownComponentName.

#[global] Instance RegistryError_eq_dec : EqDecision RegistryError.
Proof. solve_decision. Defined.

Abbreviation Registry := (gmap string ComponentType).

(** A component instance as the registry makes it. *)
Record Instance := {
  instance_type : ComponentType;
  instance_value : Data
}.

(** Modelled from the spec: the registry behind
    [IGN_GAZEBO_REGISTER_COMPONENT] ([components/Factory.hh] is not among
    the sources).  Section 4.1: [Register] succeeds and is a no-op if an
    identical identity is already registered under [name], and fails with
    [DuplicateRegistration] if [name] exists under a conflicting identity. *)
Definition Register (name : string) (vt : ValueType) (d : string) (reg : Registry)
  : RegistryError + Registry :=
  let c := {| valueType := vt; discriminator := d |} in
  match reg !! name with
  | None => inr (<[name := c]> reg)
  | Some c' => if decide (c' = c) then inr reg else inl DuplicateRegistration
  end.

(** Modelled from the spec: section 4.1, [Create(name)] constructs a
    default-valued instance of the registered identity and fails with
    [UnknownComponentName] if [name] is unregistered ([Factory.hh] is not
    among the sources). *)
Definition Create (name : string) (reg : Registry) : RegistryError + Instance :=
  match reg !! name with
  | Some c => inr {| instance_type := c; instance_value := default_value (valueType c) |}
  | None => inl UnknownComponentName
  end.

(** Modelled from the spec: section 4.1, [Lookup(valueType, discriminator)]
    is the inverse lookup and fails with [UnknownComponentName] if no such
    identity is registered ([Factory.hh] is not among the sources). *)
Definition Lookup (vt : ValueType) (d : string) (reg : Registry) : RegistryError + string :=
  let c := {| valueType := vt; discriminator := d |} in
  match list_find (λ kv : string * ComponentType, kv.2 = c) (map_to_list reg) with
  | Some (_, kv) => inr kv.1
  | None => inl UnknownComponentName
  end.

(** Modelled from the spec: section 3, the invariant of the data model:
    a (valueType, discriminator) pair maps to exactly one name (that a name
    maps to one pair is what a map gives). *)
Definition registry_invariant (reg : Registry) : Prop :=
  ∀ n1 n2 c, reg !! n1 = Some c → reg !! n2 = Some c → n1 = n2.

(** Modelled from the spec: section 7, registry errors return
    synchronously to the caller; so a run of registrations, such as the
    ones a header makes, stops at the first that fails and reports it
    ([Factory.hh] and the registration macro are not among the sources). *)
Definition register_all (l : list (string * ComponentType)) (reg : Registry)
  : RegistryError + Registry :=
  foldl (λ acc nc,
           match acc with
           | inr r => Register nc.1 (valueType nc.2) (discriminator nc.2) r
           | inl e => inl e
           end) (inr reg) l.

Definition LinearVelocityCmd_hh : list (string * ComponentType) :=
  [(LinearVelocityCmd_name, LinearVelocityCmd);
   (WorldLinearVelocityCmd_name, WorldLinearVelocityCmd)].

(** The registry after the two registrations of LinearVelocityCmd.hh. *)
Definition velocity_registry : Registry :=
  <[WorldLinearVelocityCmd_name := WorldLinearVelocityCmd]>
    (<[LinearVelocityCmd_name := LinearVelocityCmd]> ∅).

(** ** The entity-component store *)

Abbreviation Store := (gmap (Entity * ComponentType) Data).

(** Modelled from the spec: section 6, what is consumed from the
    entity-component store ([EntityComponentManager] is not among the
    sources): create-typed-component, get-component-value, has-component,
    with instances keyed by (entity, identity) as in section 3. *)
Definition CreateComponent (e : Entity) (c : ComponentType) (v : Data) (ecm : Store) : Store :=
  <[(e, c) := v]> ecm.

(** Modelled from the spec: section 6, get-component-value(entity), an
    optional value ([EntityComponentManager] is not among the sources). *)
Definition ComponentData (e : Entity) (c : ComponentType) (ecm : Store) : option Data :=
  ecm !! (e, c).

(** Modelled from the spec: section 6, has-component(entity), a boolean
    ([EntityComponentManager] is not among the sources). *)
Definition HasComponent (e : Entity) (c : ComponentType) (ecm : Store) : bool :=
  bool_decide (is_Some (ecm !! (e, c))).

(** Modelled from the spec: section 6, get-component(entity) returns an
    optional handle, and section 3, only the value of an instance may
    change: a write goes through the handle, and there is a handle only for
    a component the entity has ([EntityComponentManager] is not among the
    sources). *)
Definition SetComponentData (e : Entity) (c : ComponentType) (v : Data) (ecm : Store)
  : option Store :=
  match ecm !! (e, c) with
  | Some _ => Some (<[(e, c) := v]> ecm)
  | None => None
  end.

(** Modelled from the spec: section 3, an instance is destroyed when that
    identity is removed from the entity ([EntityComponentManager] is not
    among the sources). *)
Definition RemoveComponent (e : Entity) (c : ComponentType) (ecm : Store) : Store :=
  delete (e, c) ecm.

(** Modelled from the spec: section 3, an instance is created when it is
    attached to an entity; here the instance the registry made for a name
    ([EntityComponentManager] is not among the sources). *)
Definition attach (e : Entity) (i : Instance) (ecm : Store) : Store :=
  CreateComponent e (instance_type i) (instance_value i) ecm.

(** The two velocities of the example of section 8: (1,0,0) and (0,1,0). *)
Definition velocity_x : Data := DVector3d {| vx := 1; vy := 0; vz := 0 |}.
Definition velocity_y : Data := DVector3d {| vx := 0; vy := 1; vz := 0 |}.

(** ** The sensor wrapper *)

(** Modelled from the spec: [components::Sensor], the marker of section
    4.2, which the comment of [Sensor::Valid] names (its header is not
    among the sources). *)
Definition components_Sensor : ComponentType :=
  {| valueType := NoData_t; discriminator := "SensorTag" |}.

(** Modelled from the spec: [components::Name], which the comment of
    [Sensor::Name] names (its header is not among the sources); its value
    is the [std::string] that [Name] returns. *)
Definition components_Name : ComponentType :=
  {| valueType := String_t; discriminator := "NameTag" |}.

(** Modelled from the spec: [components::Pose], which the comment of
    [Sensor::Pose] names (its header is not among the sources); its value
    is the [math::Pose3d] that [Pose] returns. *)
Definition components_Pose : ComponentType :=
  {| valueType := Pose3d_t; discriminator := "PoseTag" |}.

(** Modelled from the spec: [components::SensorTopic], which the comment
    of [Sensor::Topic] names (its header is not among the sources); its
    value is the [std::string] that [Topic] returns. *)
Definition components_SensorTopic : ComponentType :=
  {| valueType := String_t; discriminator := "SensorTopicTag" |}.

(** Modelled from the spec: [components::ParentEntity], which the comment
    of [Sensor::Parent] names (its header is not among the sources); its
    value is the [Entity] that [Parent] returns. *)
Definition components_ParentEntity : ComponentType :=
  {| valueType := Entity_t; discriminator := "ParentEntityTag" |}.

(** [class Sensor].  Its private data ([dataPtr], defined in Sensor.cc) is
    taken to be the one thing its interface speaks of: the entity the
    wrapper is related to. *)
Record Sensor := { id : Entity }.

(** Modelled from the spec: [explicit Sensor(gazebo::Entity _entity =
    kNullEntity)], declared in Sensor.hh and defined in Sensor.cc, which is
    not among the sources. *)
Definition Sensor_new (_entity : Entity) : Sensor := {| id := _entity |}.

(** Modelled from the spec: [gazebo::Entity Entity() const], "the entity
    which this Sensor is related to" (defined in Sensor.cc, which is not
    among the sources). *)
Definition Sensor_Entity (s : Sensor) : Entity := id s.

(** Modelled from the spec: [void ResetEntity(gazebo::Entity _newEntity)],
    "reset Entity to a new one" (defined in Sensor.cc, which is not among
    the sources). *)
Definition ResetEntity (_newEntity : Entity) (s : Sensor) : Sensor :=
  {| id := _newEntity |}.

Definition as_string (d : Data) : option string :=
  match d with DString s => Some s | _ => None end.
Definition as_pose (d : Data) : option Pose3d :=
  match d with DPose3d p => Some p | _ => None end.
Definition as_entity (d : Data) : option Entity :=
  match d with DEntity e => Some e | _ => None end.

(** Modelled from the spec: [bool Valid(const EntityComponentManager &)
    const] of section 4.2 and of the comment of its declaration, true if
    the entity has a [components::Sensor] in the manager (defined in
    Sensor.cc, which is not among the sources). *)
Definition Valid (s : Sensor) (_ecm : Store) : bool :=
  HasComponent (id s) components_Sensor _ecm.

(** Modelled from the spec: [std::optional<std::string> Name(...) const],
    the sensor's name, or [nullopt] if the entity does not have a
    [components::Name]; each call asks the manager again (defined in
    Sensor.cc, which is not among the sources). *)
Definition Name (s : Sensor) (_ecm : Store) : option string :=
  ComponentData (id s) components_Name _ecm ≫= as_string.

(** Modelled from the spec: [std::optional<math::Pose3d> Pose(...) const],
    the pose, or [nullopt] if the entity does not have a
    [components::Pose] (defined in Sensor.cc, which is not among the
    sources). *)
Definition Pose (s : Sensor) (_ecm : Store) : option Pose3d :=
  ComponentData (id s) components_Pose _ecm ≫= as_pose.

(** Modelled from the spec: [std::optional<std::string> Topic(...) const],
    the topic, or [nullopt] if the entity does not have a
    [components::SensorTopic] (defined in Sensor.cc, which is not among
    the sources). *)
Definition Topic (s : Sensor) (_ecm : Store) : option string :=
  ComponentData (id s) components_SensorTopic _ecm ≫= as_string.

(** Modelled from the spec: [std::optional<gazebo::Entity> Parent(...)
    const], the parent entity, or [nullopt] if the entity does not have a
    [components::ParentEntity] (defined in Sensor.cc, which is not among
    the sources). *)
Definition Parent (s : Sensor) (_ecm : Store) : option Entity :=
  ComponentData (id s) components_ParentEntity _ecm ≫= as_entity.

(** A store in which entity 5 is a sensor with a name and a parent, and
    has neither a pose nor a topic. *)
Definition sensor_store : Store :=
  CreateComponent 5 components_ParentEntity (DEntity 2)
    (CreateComponent 5 components_Name (DString "camera")
       (CreateComponent 5 components_Sensor DNoData ∅)).

(** ** The Configure phase *)

(** Modelled from the spec: section 4.3, [Configure(entity,
    configurationPayload, store, eventSink)] on a record (the caller of
    the hooks, SystemManager, is not among the sources): the payload is
    handed to the unit's Configure hook if the record has one, together
    with the owning entity, and is cached in [configureSdf]. *)
Definition invoke_Configure (payload : SdfElement) (r : SystemInternal)
  : Trace SystemInternal :=
  match configure r with
  | Some p =>
      emit (EvHook Configure (pointee p) (parentEntity r) (Some payload))
           (set_configureSdf (Some payload) r)
  | None => mret (set_configureSdf (Some payload) r)
  end.

(** Modelled from the spec: section 4.3, a later re-Configure replays the
    cached payload; with nothing cached there is nothing to replay. *)
Definition reinvoke_Configure (r : SystemInternal) : Trace SystemInternal :=
  match configureSdf r with
  | Some payload => invoke_Configure payload r
  | None => mret r
  end.

(** The payloads a trace delivered to Configure hooks, in order. *)
Definition delivered (t : list Event) : list (N * Entity * option SdfElement) :=
  omap (λ e, match e with
             | EvHook Configure u en p => Some (u, en, p)
             | _ => None
             end) t.

(** ** [systems::ShaderParam] (src/systems/shader_param/ShaderParam.cc) *)

(** [sdf::Element], of libsdformat: an element has a name, attributes, a
    value and child elements.  [HasElement(name)] asks for a child of that
    name; [GetElement(name)] is the first such child and
    [GetNextElement(name)] the next sibling of that name, so an
    [sdf::ElementPtr] that a loop advances with [GetNextElement] is the
    list of the children of that name that are left, and the null pointer
    is the empty list. *)
#[warnings="-register-all"]
Inductive Element := mkElement {
  elem_name : string;
  elem_attributes : list (string * string);
  elem_value : string;
  elem_children : list Element
}.

Abbreviation ElementPtr := (list Element).

Definition GetElement (name : string) (e : Element) : ElementPtr :=
  filter (λ c, elem_name c = name) (elem_children e).

Definition GetNextElement (p : ElementPtr) : ElementPtr := tail p.

Definition HasElement (name : string) (e : Element) : bool :=
  match GetElement name e with [] => false | _ :: _ => true end.

Definition GetAttribute (key : string) (e : Element) : option string :=
  (list_find (λ kv : string * string, kv.1 = key) (elem_attributes e)) ≫= λ r, Some r.2.2.

Definition HasAttribute (key : string) (e : Element) : bool :=
  match GetAttribute key e with Some _ => true | None => false end.

(** [Get<std::string>(key, default)]: the attribute [key] if there is one,
    else the value of the first child [key], else the default; the second
    component says whether a value was found. *)
Definition Get (key : string) (default : string) (e : Element) : string * bool :=
  match GetAttribute key e with
  | Some v => (v, true)
  | None =>
      match GetElement key e with
      | c :: _ => (elem_value c, true)
      | [] => (default, false)
      end
  end.

(** [ShaderParamPrivate::ShaderParamValue] and [ShaderParamPrivate::ShaderUri]. *)
Record ShaderParamValue := {
  spv_shader : string;
  spv_type : string;
  spv_name : string;
  spv_value : string;
  spv_args : list string
}.

Record ShaderUri := {
  uri_language : string;
  vertexShaderUri : string;
  fragmentShaderUri : string
}.

(** [class ShaderParamPrivate].  The rendering pointers are kept as
    handles; [connection] is whether the connection pointer is set;
    [currentSimTime] counts nanoseconds. *)
Record ShaderParamPrivate := {
  shaders : gmap string ShaderUri;
  connection : bool;
  visualName : string;
  visual : option N;
  material : option N;
  scene : option N;
  sp_entity : Entity;
  shaderParams : list ShaderParamValue;
  timeParams : list ShaderParamValue;
  currentSimTime : Z;
  modelPath : string
}.

(** A freshly constructed [ShaderParamPrivate]. *)
Definition ShaderParamPrivate_new : ShaderParamPrivate :=
  {| shaders := ∅; connection := false; visualName := ""; visual := None;
     material := None; scene := None; sp_entity := kNullEntity;
     shaderParams := []; timeParams := []; currentSimTime := 0%Z;
     modelPath := "" |}.

(** What [Configure] uses from outside this file: of the entity-component
    manager, [topLevelModel(_entity, _ecm)] (Util.hh),
    [_ecm.ComponentData<components::SourceFilePath>(entity)] and
    [_ecm.Component<components::Name>(entity)]; of the file utilities,
    [common::findFile] and [asFullPath]. *)
Class ShaderParamEnv := {
  ECM : Type;
  topLevelModel : Entity → ECM → Entity;
  SourceFilePath : ECM → Entity → option string;
  NameComponent : ECM → Entity → option string;
  findFile : string → string;
  asFullPath : string → string → string
}.

(** How a call ends: it returns, it throws [std::bad_optional_access]
    (from [optional::value()]), or it dereferences a null pointer.  Each
    carries the private data as the call left it and what was written to
    [ignerr]. *)
Inductive Ending := Returned | ThrewBadOptionalAccess | NullDereference.

Record Outcome := {
  ending : Ending;
  data : ShaderParamPrivate;
  ignerr : list string
}.

Definition msg_param : string := "<param> must have <shader> and <name> sdf elements".
Definition msg_missing_shader : string :=
  "Unable to load shader param system. Missing <shader> SDF element.".
Definition msg_shader : string := "<shader> must have <vertex> and <fragment> sdf elements".
Definition msg_no_valid_shaders : string :=
  "Unable to load shader param system. No valid shaders.".

(** The inner loop of [Configure] over the [<arg>] children of a
    [<param>]: [spv.args.push_back(argElem->Get<std::string>())]. *)
Fixpoint Configure_args (argElem : ElementPtr) (args : list string) : list string :=
  match argElem with
  | [] => args
  | a :: next => Configure_args next (args ++ [elem_value a])
  end.

(** The body of the loop over [<param>] for an element that has [<shader>]
    and [<name>]. *)
Definition Configure_param (paramElem : Element) : ShaderParamValue :=
  let shaderType := (Get "shader" "" paramElem).1 in
  let paramName := (Get "name" "" paramElem).1 in
  let type := (Get "type" "float" paramElem).1 in
  let value := (Get "value" "" paramElem).1 in
  let args :=
    if HasElement "arg" paramElem
    then Configure_args (GetElement "arg" paramElem) []
    else [] in
  {| spv_shader := shaderType; spv_type := type; spv_name := paramName;
     spv_value := value; spv_args := args |}.

(** The loop of [Configure] over the [<param>] elements: an element
    without [<shader>] or [<name>] is reported and skipped. *)
Fixpoint Configure_params (paramElem : ElementPtr)
    (params : list ShaderParamValue) (err : list string)
  : list ShaderParamValue * list string :=
  match paramElem with
  | [] => (params, err)
  | p :: next =>
      if negb (HasElement "shader" p) || negb (HasElement "name" p)
      then Configure_params next params (err ++ [msg_param])
      else Configure_params next (params ++ [Configure_param p]) err
  end.

(** Whether the loops of [Configure] accept an element. *)
Definition param_ok (p : Element) : bool :=
  HasElement "shader" p && HasElement "name" p.

Definition shader_ok (e : Element) : bool :=
  HasElement "vertex" e && HasElement "fragment" e.

(** The shader language of a [<shader>]: its [language] attribute, [glsl]
    by default. *)
Definition shader_api (shaderElem : Element) : string :=
  if HasAttribute "language" shaderElem
  then default "" (GetAttribute "language" shaderElem)
  else "glsl".

(** The body of the loop over [<shader>] for an element that has
    [<vertex>] and [<fragment>]. *)
Definition Configure_shader {env : ShaderParamEnv} (modelPath_ : string) (shaderElem : Element)
  : ShaderUri :=
  let api := shader_api shaderElem in
  let vertexElem := GetElement "vertex" shaderElem in
  let fragmentElem := GetElement "fragment" shaderElem in
  {| uri_language := api;
     vertexShaderUri :=
       findFile (asFullPath (default "" (elem_value <$> head vertexElem)) modelPath_);
     fragmentShaderUri :=
       findFile (asFullPath (default "" (elem_value <$> head fragmentElem)) modelPath_) |}.

(** The loop of [Configure] over the [<shader>] elements.  The pointer is
    advanced in the [else] branch only: on an element without [<vertex>]
    or [<fragment>] the loop reports it and tests the same element again.
    [fuel] bounds the number of iterations; [None] is a loop that is still
    running when the fuel is spent. *)
Fixpoint Configure_shaders {env : ShaderParamEnv} (fuel : nat) (modelPath_ : string)
    (shaderElem : ElementPtr) (shaders_ : gmap string ShaderUri) (err : list string)
  : option (gmap string ShaderUri * list string) :=
  match fuel with
  | O => None
  | S fuel' =>
      match shaderElem with
      | [] => Some (shaders_, err)
      | e :: next =>
          if negb (HasElement "vertex" e) || negb (HasElement "fragment" e)
          then Configure_shaders fuel' modelPath_ shaderElem shaders_ (err ++ [msg_shader])
          else
            let shader := Configure_shader modelPath_ e in
            Configure_shaders fuel' modelPath_ next
              (<[uri_language shader := shader]> shaders_) err
      end
  end.

Definition set_shaderParams (l : list ShaderParamValue) (d : ShaderParamPrivate)
  : ShaderParamPrivate :=
  {| shaders := shaders d; connection := connection d; visualName := visualName d;
     visual := visual d; material := material d; scene := scene d;
     sp_entity := sp_entity d; shaderParams := l; timeParams := timeParams d;
     currentSimTime := currentSimTime d; modelPath := modelPath d |}.

Definition set_modelPath (p : string) (d : ShaderParamPrivate) : ShaderParamPrivate :=
  {| shaders := shaders d; connection := connection d; visualName := visualName d;
     visual := visual d; material := material d; scene := scene d;
     sp_entity := sp_entity d; shaderParams := shaderParams d;
     timeParams := timeParams d; currentSimTime := currentSimTime d; modelPath := p |}.

Definition set_shaders (m : gmap string ShaderUri) (d : ShaderParamPrivate)
  : ShaderParamPrivate :=
  {| shaders := m; connection := connection d; visualName := visualName d;
     visual := visual d; material := material d; scene := scene d;
     sp_entity := sp_entity d; shaderParams := shaderParams d;
     timeParams := timeParams d; currentSimTime := currentSimTime d;
     modelPath := modelPath d |}.

Definition set_sp_entity (e : Entity) (d : ShaderParamPrivate) : ShaderParamPrivate :=
  {| shaders := shaders d; connection := connection d; visualName := visualName d;
     visual := visual d; material := material d; scene := scene d;
     sp_entity := e; shaderParams := shaderParams d;
     timeParams := timeParams d; currentSimTime := currentSimTime d;
     modelPath := modelPath d |}.

Definition set_visualName (n : string) (d : ShaderParamPrivate) : ShaderParamPrivate :=
  {| shaders := shaders d; connection := connection d; visualName := n;
     visual := visual d; material := material d; scene := scene d;
     sp_entity := sp_entity d; shaderParams := shaderParams d;
     timeParams := timeParams d; currentSimTime := currentSimTime d;
     modelPath := modelPath d |}.

Definition set_connection (c : bool) (d : ShaderParamPrivate) : ShaderParamPrivate :=
  {| shaders := shaders d; connection := c; visualName := visualName d;
     visual := visual d; material := material d; scene := scene d;
     sp_entity := sp_entity d; shaderParams := shaderParams d;
     timeParams := timeParams d; currentSimTime := currentSimTime d;
     modelPath := modelPath d |}.

Definition set_currentSimTime (t : Z) (d : ShaderParamPrivate) : ShaderParamPrivate :=
  {| shaders := shaders d; connection := connection d; visualName := visualName d;
     visual := visual d; material := material d; scene := scene d;
     sp_entity := sp_entity d; shaderParams := shaderParams d;
     timeParams := timeParams d; currentSimTime := t;
     modelPath := modelPath d |}.

(** [void ShaderParam::Configure(const Entity &_entity,
    const std::shared_ptr<const sdf::Element> &_sdf,
    EntityComponentManager &_ecm, EventManager &_eventMgr)]. *)
Definition ShaderParam_Configure {env : ShaderParamEnv} (fuel : nat)
    (_entity : Entity) (sdf : Element) (_ecm : ECM) (d : ShaderParamPrivate)
  : option Outcome :=
  (* loop and parse all shader params *)
  let '(params, err) :=
    if HasElement "param" sdf
    then Configure_params (GetElement "param" sdf) (shaderParams d) []
    else (shaderParams d, []) in
  let d := set_shaderParams params d in
  (* the path to the model *)
  let path :=
    if bool_decide (modelPath d = "")
    then SourceFilePath _ecm (topLevelModel _entity _ecm)
    else Some (modelPath d) in
  match path with
  | None => Some {| ending := ThrewBadOptionalAccess; data := d; ignerr := err |}
  | Some path =>
      let d := set_modelPath path d in
      (* parse path to shaders *)
      if negb (HasElement "shader" sdf)
      then Some {| ending := Returned; data := d; ignerr := err ++ [msg_missing_shader] |}
      else
        match Configure_shaders fuel path (GetElement "shader" sdf) (shaders d) err with
        | None => None
        | Some (shaders_, err) =>
            let d := set_shaders shaders_ d in
            if bool_decide (shaders_ = ∅)
            then Some {| ending := Returned; data := d;
                         ignerr := err ++ [msg_no_valid_shaders] |}
            else
              let d := set_sp_entity _entity d in
              match NameComponent _ecm _entity with
              | None => Some {| ending := NullDereference; data := d; ignerr := err |}
              | Some name =>
                  let d := set_visualName name d in
                  (* connect to the SceneUpdate event *)
                  Some {| ending := Returned; data := set_connection true d; ignerr := err |}
              end
        end
  end.

(** [void ShaderParam::PreUpdate(const UpdateInfo &_info,
    EntityComponentManager &)]: stores [_info.simTime]. *)
Definition ShaderParam_PreUpdate (simTime : Z) (d : ShaderParamPrivate) : ShaderParamPrivate :=
  set_currentSimTime simTime d.

(** An environment for examples: every entity is its own top-level model,
    every model comes from [/models/m] and every entity is called
    [visual]; files resolve to themselves under the model path. *)
Definition example_env : ShaderParamEnv :=
  {| ECM := unit;
     topLevelModel := λ e _, e;
     SourceFilePath := λ _ _, Some "/models/m";
     NameComponent := λ _ _, Some "visual";
     findFile := λ f, f;
     asFullPath := λ f p, p +:+ "/" +:+ f |}.

Definition leaf (name value : string) : Element :=
  {| elem_name := name; elem_attributes := []; elem_value := value; elem_children := [] |}.

(** A plugin element with one complete [<param>], one [<param>] without
    [<name>], and one [<shader>] with both files. *)
Definition example_sdf : Element :=
  {| elem_name := "plugin"; elem_attributes := []; elem_value := "";
     elem_children :=
       [ {| elem_name := "param"; elem_attributes := []; elem_value := "";
            elem_children := [leaf "shader" "fragment"; leaf "name" "t";
                              leaf "value" "TIME"] |};
         {| elem_name := "param"; elem_attributes := []; elem_value := "";
            elem_children := [leaf "shader" "vertex"] |};
         {| elem_name := "shader"; elem_attributes := []; elem_value := "";
            elem_children := [leaf "vertex" "s.vert"; leaf "fragment" "s.frag"] |} ] |}.

(** The same plugin element with a second [<shader>] that has no
    [<fragment>]. *)
Definition example_sdf_bad_shader : Element :=
  {| elem_name := "plugin"; elem_attributes := []; elem_value := "";
     elem_children :=
       elem_children example_sdf ++
       [ {| elem_name := "shader"; elem_attributes := [("language", "metal")];
            elem_value := ""; elem_children := [leaf "vertex" "s.metal"] |} ] |}.

(** ** The search for the visual in [ShaderParamPrivate::OnUpdate] *)

(** [rendering::UserData], the type of a node's user data: what matters
    here is whether it holds an [int], and which. *)
Inductive UserData := VariantInt (i : Z) | VariantOther.

(** A node of the scene graph as the search sees it: the user data stored
    under [gazebo-entity] if any, whether the node is a
    [rendering::Visual] (what [dynamic_pointer_cast] tests), and its
    children. *)
#[warnings="-register-all"]
Inductive Node := mkNode {
  node_id : N;
  node_gazebo_entity : option UserData;
  node_is_visual : bool;
  node_children : list Node
}.

(** [static_cast<int>(entity)]: the low 32 bits of the 64-bit identifier,
    read as a signed number. *)
Definition to_int (e : Entity) : Z :=
  let r := (Z.of_N e `mod` 2 ^ 32)%Z in
  if (r <? 2 ^ 31)%Z then r else (r - 2 ^ 32)%Z.

(** [Entity entityId = <an int>]: the int converted to the unsigned 64-bit
    identifier. *)
Definition Entity_of_int (i : Z) : Entity := Z.to_N (i `mod` 2 ^ 64).

(** [n->HasUserData("gazebo-entity")], and then
    [std::get_if<int>] of the data holds [static_cast<int>(entity)]. *)
Definition is_entity (n : Node) (entity : Entity) : bool :=
  match node_gazebo_entity n with
  | Some (VariantInt value) => bool_decide (value = to_int entity)
  | _ => false
  end.

(** The loop [while (!nodes.empty())] of [OnUpdate]: the front of the list
    is taken off; if it is the entity's node the loop breaks with it,
    otherwise its children are pushed at the back.  [Some None] is the
    loop ending with the list empty; [None] is a loop still running when
    the fuel is spent. *)
Fixpoint OnUpdate_search (fuel : nat) (nodes : list Node) (entity : Entity)
  : option (option Node) :=
  match fuel with
  | O => None
  | S fuel' =>
      match nodes with
      | [] => Some None
      | n :: rest =>
          if is_entity n entity then Some (Some n)
          else OnUpdate_search fuel' (rest ++ node_children n) entity
      end
  end.

(** All nodes below a list of nodes, each with its depth. *)
Fixpoint node_descendants (depth : nat) (n : Node) : list (nat * Node) :=
  match n with
  | mkNode _ _ _ children =>
      (depth, n) :: flat_map (node_descendants (S depth)) children
  end.

Definition descendants (depth : nat) (nodes : list Node) : list (nat * Node) :=
  flat_map (node_descendants depth) nodes.

Definition node_count (nodes : list Node) : nat := length (descendants 0 nodes).

(** The same loop on a list that carries the depth of each node, for the
    statements about depth: a child is pushed with its parent's depth plus
    one. *)
Fixpoint search_with_depth (fuel : nat) (q : list (nat * Node)) (entity : Entity)
  : option (option (nat * Node)) :=
  match fuel with
  | O => None
  | S fuel' =>
      match q with
      | [] => Some None
      | (d, n) :: rest =>
          if is_entity n entity then Some (Some (d, n))
          else search_with_depth fuel'
                 (rest ++ ((λ c, (S d, c)) <$> node_children n)) entity
      end
  end.

(** The descendants of a list of nodes with depths. *)
Definition queue_descendants (q : list (nat * Node)) : list (nat * Node) :=
  flat_map (λ dn, node_descendants dn.1 dn.2) q.

(** The list holds nodes of one depth followed by nodes one deeper. *)
Definition two_levels (q : list (nat * Node)) : Prop :=
  ∃ d a b, q = ((λ c, (d, c)) <$> a) ++ ((λ c, (S d, c)) <$> b).

(** A tree for examples: a root with two children, the second of which
    has a child; the nodes 3 and 4 hold the user data of entity 8. *)
Definition example_tree : Node :=
  {| node_id := 1; node_gazebo_entity := None; node_is_visual := true;
     node_children :=
       [ {| node_id := 2; node_gazebo_entity := Some (VariantInt 7);
            node_is_visual := true; node_children := [] |};
         {| node_id := 3; node_gazebo_entity := Some (VariantInt 8);
            node_is_visual := true;
            node_children :=
              [ {| node_id := 4; node_gazebo_entity := Some (VariantInt 8);
                   node_is_visual := true; node_children := [] |} ] |} ] |}.

(** ** The shader params in [ShaderParamPrivate::OnUpdate] *)

(** What the loop over the shader params uses from outside this file:
    [common::split], and of the standard library [std::stoi] (with the
    number of characters it processed), [std::stof] and [std::stoul],
    which throw on a string they cannot convert ([None]); [float] itself,
    the conversion of an [int] to it, and the simulation time in seconds
    as a [float]. *)
Class ParseEnv := {
  float32 : Type;
  split : string → string → list string;
  stoi : string → option (Z * nat);
  stof : string → option float32;
  stoul : string → option N;
  float_of_int : Z → float32;
  seconds_of_nanoseconds : Z → float32
}.

(** [rendering::ShaderParam::ParamType], as far as the loop names it. *)
Inductive ParamType :=
| PARAM_NONE | PARAM_INT | PARAM_FLOAT | PARAM_INT_BUFFER | PARAM_FLOAT_BUFFER
| PARAM_TEXTURE | PARAM_TEXTURE_CUBE.

(** The [rendering::ShaderParamsPtr params] of an iteration: the
    material's fragment or vertex shader params, or the null pointer it is
    initialised with. *)
Inductive ParamsPtr := FragmentShaderParams | VertexShaderParams | NullParams.

(** What an iteration does with the entry [spv.name] of [*params]. *)
Inductive ParamOp {parse : ParseEnv} :=
| AssignInt (i : Z)
| AssignFloat (f : float32)
| SetTexture (texPath : string) (type : ParamType) (uvSetIndex : N)
| SetBuffer (type : ParamType) (values : list float32).

(** How an iteration of the loop ends. *)
Inductive ParamStep {parse : ParseEnv} :=
| TimeParam
| NothingSet
| ParamSet (params : ParamsPtr) (name : string) (op : ParamOp)
| ParamThrows
| ParamNullDereference.

Definition params_of (shader : string) : ParamsPtr :=
  if bool_decide (shader = "fragment") then FragmentShaderParams
  else if bool_decide (shader = "vertex") then VertexShaderParams
  else NullParams.

(** The entry [name] of [*params] used for [op]: a null [params] is
    dereferenced. *)
Definition set_param {parse : ParseEnv} (params : ParamsPtr) (name : string) (op : ParamOp)
  : ParamStep :=
  match params with
  | NullParams => ParamNullDereference
  | _ => ParamSet params name op
  end.

(** [spv.args.empty() ? 0u : static_cast<unsigned int>(std::stoul(spv.args[0]))]. *)
Definition uvSetIndex {parse : ParseEnv} (args : list string) : option N :=
  match args with
  | [] => Some 0
  | a :: _ => (λ n, n `mod` 2 ^ 32) <$> stoul a
  end.

(** The conversion of every string of a list; the first failure throws. *)
Fixpoint convert_all {A B} (f : A → option B) (l : list A) : option (list B) :=
  match l with
  | [] => Some []
  | x :: l' => y ← f x; ys ← convert_all f l'; Some (y :: ys)
  end.

(** The body of the loop [for (const auto & spv : this->shaderParams)]. *)
Definition OnUpdate_param {env : ShaderParamEnv} {parse : ParseEnv} (modelPath_ : string)
    (spv : ShaderParamValue) : ParamStep :=
  (* TIME is reserved keyword for sim time *)
  if bool_decide (spv_value spv = "TIME") then TimeParam
  else
    let params := params_of (spv_shader spv) in
    (* if no <value> is specified, this could be a constant *)
    if bool_decide (spv_value spv = "") then set_param params (spv_name spv) (AssignInt 1)
    else if bool_decide (spv_type spv = "texture") then
      match uvSetIndex (spv_args spv) with
      | None => ParamThrows
      | Some uv =>
          let texPath := findFile (asFullPath (spv_value spv) modelPath_) in
          set_param params (spv_name spv) (SetTexture texPath PARAM_TEXTURE uv)
      end
    else if bool_decide (spv_type spv = "texture_cube") then
      match uvSetIndex (spv_args spv) with
      | None => ParamThrows
      | Some uv =>
          let texPath := findFile (asFullPath (spv_value spv) modelPath_) in
          set_param params (spv_name spv) (SetTexture texPath PARAM_TEXTURE_CUBE uv)
      end
    else
      let values := split (spv_value spv) " " in
      match values with
      | [str] =>
          (* float / int *)
          if negb (bool_decide (spv_type spv = "")) then
            if bool_decide (spv_type spv = "int") then
              match stoi str with
              | None => ParamThrows
              | Some (n, _) => set_param params (spv_name spv) (AssignInt n)
              end
            else if bool_decide (spv_type spv = "float") then
              match stof str with
              | None => ParamThrows
              | Some f => set_param params (spv_name spv) (AssignFloat f)
              end
            else NothingSet
          else
            match stoi str with
            | None => ParamThrows
            | Some (n, sz) =>
                if bool_decide (sz = String.length str)
                then set_param params (spv_name spv) (AssignInt n)
                else
                  match stof str with
                  | None => ParamThrows
                  | Some f => set_param params (spv_name spv) (AssignFloat f)
                  end
            end
      | _ =>
          (* arrays *)
          if negb (bool_decide (spv_type spv = "")) && bool_decide (spv_type spv = "int_array")
          then
            match convert_all (λ v, (λ r, float_of_int r.1) <$> stoi v) values with
            | None => ParamThrows
            | Some fs => set_param params (spv_name spv) (SetBuffer PARAM_INT_BUFFER fs)
            end
          else
            match convert_all stof values with
            | None => ParamThrows
            | Some fs => set_param params (spv_name spv) (SetBuffer PARAM_FLOAT_BUFFER fs)
            end
      end.

(** How the two loops over the params end, with what was set on the
    material, in order. *)
Inductive ParamsEnding := ParamsDone | ParamsThrew | ParamsNullDereference.

(** The loop over [shaderParams]: a [TIME] param is moved to
    [timeParams]; a throw or a null dereference leaves the loop at once. *)
Fixpoint OnUpdate_params {env : ShaderParamEnv} {parse : ParseEnv} (modelPath_ : string)
    (l : list ShaderParamValue) (timeParams_ : list ShaderParamValue)
    (done : list (ParamsPtr * string * ParamOp))
  : ParamsEnding * list ShaderParamValue * list (ParamsPtr * string * ParamOp) :=
  match l with
  | [] => (ParamsDone, timeParams_, done)
  | spv :: l' =>
      match OnUpdate_param modelPath_ spv with
      | TimeParam => OnUpdate_params modelPath_ l' (timeParams_ ++ [spv]) done
      | NothingSet => OnUpdate_params modelPath_ l' timeParams_ done
      | ParamSet p name op => OnUpdate_params modelPath_ l' timeParams_ (done ++ [(p, name, op)])
      | ParamThrows => (ParamsThrew, timeParams_, done)
      | ParamNullDereference => (ParamsNullDereference, timeParams_, done)
      end
  end.

(** The loop over [timeParams]: each is set to the simulation time. *)
Fixpoint OnUpdate_timeParams {parse : ParseEnv} (simTime : Z) (l : list ShaderParamValue)
    (done : list (ParamsPtr * string * ParamOp))
  : ParamsEnding * list (ParamsPtr * string * ParamOp) :=
  match l with
  | [] => (ParamsDone, done)
  | spv :: l' =>
      match set_param (params_of (spv_shader spv)) (spv_name spv)
              (AssignFloat (seconds_of_nanoseconds simTime)) with
      | ParamSet p name op => OnUpdate_timeParams simTime l' (done ++ [(p, name, op)])
      | _ => (ParamsNullDereference, done)
      end
  end.

Definition set_params_lists (sp tp : list ShaderParamValue) (d : ShaderParamPrivate)
  : ShaderParamPrivate :=
  {| shaders := shaders d; connection := connection d; visualName := visualName d;
     visual := visual d; material := material d; scene := scene d;
     sp_entity := sp_entity d; shaderParams := sp; timeParams := tp;
     currentSimTime := currentSimTime d; modelPath := modelPath d |}.

(** The end of [OnUpdate], once the material is there: the params read
    from the plugin are set ("this is only done once": the list is
    cleared after the loop), then the time params. *)
Definition OnUpdate_set_params {env : ShaderParamEnv} {parse : ParseEnv} (d : ShaderParamPrivate)
  : ParamsEnding * ShaderParamPrivate * list (ParamsPtr * string * ParamOp) :=
  match OnUpdate_params (modelPath d) (shaderParams d) (timeParams d) [] with
  | (ParamsDone, tp, done) =>
      let d := set_params_lists [] tp d in
      let '(e, done) := OnUpdate_timeParams (currentSimTime d) tp done in
      (e, d, done)
  | (e, tp, done) => (e, set_params_lists (shaderParams d) tp d, done)
  end.

(** An environment for examples: numbers are read by a table of the few
    strings the examples use, and a [float] is kept as the integer it came
    from. *)
Definition example_parse : ParseEnv :=
  {| float32 := Z;
     split := λ s _, if bool_decide (s = "1 2 3") then ["1"; "2"; "3"] else [s];
     stoi := λ s, if bool_decide (s = "1") then Some (1%Z, 1%nat)
                  else if bool_decide (s = "2") then Some (2%Z, 1%nat)
                  else if bool_decide (s = "3") then Some (3%Z, 1%nat)
                  else None;
     stof := λ s, if bool_decide (s = "1") then Some 1%Z
                  else if bool_decide (s = "2") then Some 2%Z
                  else if bool_decide (s = "3") then Some 3%Z
                  else None;
     stoul := λ s, if bool_decide (s = "1") then Some 1 else None;
     float_of_int := λ z, z;
     seconds_of_nanoseconds := λ z, (z `div` 1000000000)%Z |}.

(** Private data with three queued params: a time param, a constant and
    an array of three values. *)
Definition example_queued : ShaderParamPrivate :=
  set_shaderParams
    [ {| spv_shader := "fragment"; spv_type := "float"; spv_name := "t";
         spv_value := "TIME"; spv_args := [] |};
      {| spv_shader := "vertex"; spv_type := "float"; spv_name := "on";
         spv_value := ""; spv_args := [] |};
      {| spv_shader := "fragment"; spv_type := "int_array"; spv_name := "ids";
         spv_value := "1 2 3"; spv_args := [] |} ]
    (set_modelPath "/models/m" ShaderParamPrivate_new).

(** ** [gui::ViewAngle] (src/gui/plugins/view_angle/ViewAngle.cc) *)

(** [rendering::CameraProjectionType]. *)
Inductive CameraProjectionType := CPT_PERSPECTIVE | CPT_ORTHOGRAPHIC.

#[global] Instance CameraProjectionType_eq_dec : EqDecision CameraProjectionType.
Proof. solve_decision. Defined.

(** A visual of the scene as the plugin asks for it: its name and the
    user data stored under [gazebo-entity]. *)
Record SceneVisual := {
  vis_name : string;
  vis_gazebo_entity : option UserData
}.

(** The user camera: the visuals of its scene, its projection type and
    its world pose. *)
Record Camera := {
  cam_scene : list SceneVisual;
  cam_projection : CameraProjectionType;
  cam_world_pose : Pose3d
}.

(** [scene->VisualByName(name)]: null when no visual has the name. *)
Definition VisualByName (name : string) (scene_ : list SceneVisual) : option SceneVisual :=
  (list_find (λ v, vis_name v = name) scene_) ≫= λ r, Some r.2.

(** [class ViewAnglePrivate]: its data members, without the transport
    node, the mutex, the move-to helper and its clock. *)
Record ViewAnglePrivate := {
  viewAngleService : string;
  viewControlService : string;
  viewControlRefVisualService : string;
  viewControlSensitivityService : string;
  moveToPoseService : string;
  moveToModelService : string;
  newMoveToModel : bool;
  distanceMoveToModel : float;
  horizontalFov : float;
  newHorizontalFOV : bool;
  camPose : Pose3d;
  camClipDist : float * float;
  newCamClipDist : bool;
  viewControlType : CameraProjectionType;
  camera : option Camera;
  viewingAngle : bool;
  viewAngleDirection : Vector3d;
  selectedEntities : list Entity;
  moveToPoseValue : option Pose3d;
  legacy : bool
}.

(** The data members as their initialisers leave them. *)
Definition ViewAnglePrivate_new : ViewAnglePrivate :=
  {| viewAngleService := "";
     viewControlService := "";
     viewControlRefVisualService := "";
     viewControlSensitivityService := "";
     moveToPoseService := "";
     moveToModelService := "";
     newMoveToModel := false;
     distanceMoveToModel := 0%float;
     horizontalFov := 0%float;
     newHorizontalFOV := false;
     camPose := {| pos := Vector3d_Zero; rot := Quaterniond_Identity |};
     camClipDist := (0%float, 0%float);
     newCamClipDist := false;
     viewControlType := CPT_PERSPECTIVE;
     camera := None;
     viewingAngle := false;
     viewAngleDirection := Vector3d_Zero;
     selectedEntities := [];
     moveToPoseValue := None;
     legacy := false |}.

Definition set_viewingAngle (v : bool) (d : ViewAnglePrivate) : ViewAnglePrivate :=
  {| viewAngleService := viewAngleService d;
     viewControlService := viewControlService d;
     viewControlRefVisualService := viewControlRefVisualService d;
     viewControlSensitivityService := viewControlSensitivityService d;
     moveToPoseService := moveToPoseService d;
     moveToModelService := moveToModelService d;
     newMoveToModel := newMoveToModel d;
     distanceMoveToModel := distanceMoveToModel d;
     horizontalFov := horizontalFov d;
     newHorizontalFOV := newHorizontalFOV d;
     camPose := camPose d;
     camClipDist := camClipDist d;
     newCamClipDist := newCamClipDist d;
     viewControlType := viewControlType d;
     camera := camera d;
     viewingAngle := v;
     viewAngleDirection := viewAngleDirection d;
     selectedEntities := selectedEntities d;
     moveToPoseValue := moveToPoseValue d;
     legacy := legacy d |}.

Definition set_newMoveToModel (v : bool) (d : ViewAnglePrivate) : ViewAnglePrivate :=
  {| viewAngleService := viewAngleService d;
     viewControlService := viewControlService d;
     viewControlRefVisualService := viewControlRefVisualService d;
     viewControlSensitivityService := viewControlSensitivityService d;
     moveToPoseService := moveToPoseService d;
     moveToModelService := moveToModelService d;
     newMoveToModel := v;
     distanceMoveToModel := distanceMoveToModel d;
     horizontalFov := horizontalFov d;
     newHorizontalFOV := newHorizontalFOV d;
     camPose := camPose d;
     camClipDist := camClipDist d;
     newCamClipDist := newCamClipDist d;
     viewControlType := viewControlType d;
     camera := camera d;
     viewingAngle := viewingAngle d;
     viewAngleDirection := viewAngleDirection d;
     selectedEntities := selectedEntities d;
     moveToPoseValue := moveToPoseValue d;
     legacy := legacy d |}.

Definition set_viewAngleDirection (v : Vector3d) (d : ViewAnglePrivate) : ViewAnglePrivate :=
  {| viewAngleService := viewAngleService d;
     viewControlService := viewControlService d;
     viewControlRefVisualService := viewControlRefVisualService d;
     viewControlSensitivityService := viewControlSensitivityService d;
     moveToPoseService := moveToPoseService d;
     moveToModelService := moveToModelService d;
     newMoveToModel := newMoveToModel d;
     distanceMoveToModel := distanceMoveToModel d;
     horizontalFov := horizontalFov d;
     newHorizontalFOV := newHorizontalFOV d;
     camPose := camPose d;
     camClipDist := camClipDist d;
     newCamClipDist := newCamClipDist d;
     viewControlType := viewControlType d;
     camera := camera d;
     viewingAngle := viewingAngle d;
     viewAngleDirection := v;
     selectedEntities := selectedEntities d;
     moveToPoseValue := moveToPoseValue d;
     legacy := legacy d |}.

Definition set_distanceMoveToModel (v : float) (d : ViewAnglePrivate) : ViewAnglePrivate :=
  {| viewAngleService := viewAngleService d;
     viewControlService := viewControlService d;
     viewControlRefVisualService := viewControlRefVisualService d;
     viewControlSensitivityService := viewControlSensitivityService d;
     moveToPoseService := moveToPoseService d;
     moveToModelService := moveToModelService d;
     newMoveToModel := newMoveToModel d;
     distanceMoveToModel := v;
     horizontalFov := horizontalFov d;
     newHorizontalFOV := newHorizontalFOV d;
     camPose := camPose d;
     camClipDist := camClipDist d;
     newCamClipDist := newCamClipDist d;
     viewControlType := viewControlType d;
     camera := camera d;
     viewingAngle := viewingAngle d;
     viewAngleDirection := viewAngleDirection d;
     selectedEntities := selectedEntities d;
     moveToPoseValue := moveToPoseValue d;
     legacy := legacy d |}.

Definition set_selectedEntities (v : list Entity) (d : ViewAnglePrivate) : ViewAnglePrivate :=
  {| viewAngleService := viewAngleService d;
     viewControlService := viewControlService d;
     viewControlRefVisualService := viewControlRefVisualService d;
     viewControlSensitivityService := viewControlSensitivityService d;
     moveToPoseService := moveToPoseService d;
     moveToModelService := moveToModelService d;
     newMoveToModel := newMoveToModel d;
     distanceMoveToModel := distanceMoveToModel d;
     horizontalFov := horizontalFov d;
     newHorizontalFOV := newHorizontalFOV d;
     camPose := camPose d;
     camClipDist := camClipDist d;
     newCamClipDist := newCamClipDist d;
     viewControlType := viewControlType d;
     camera := camera d;
     viewingAngle := viewingAngle d;
     viewAngleDirection := viewAngleDirection d;
     selectedEntities := v;
     moveToPoseValue := moveToPoseValue d;
     legacy := legacy d |}.

Definition set_moveToPoseValue (v : option Pose3d) (d : ViewAnglePrivate) : ViewAnglePrivate :=
  {| viewAngleService := viewAngleService d;
     viewControlService := viewControlService d;
     viewControlRefVisualService := viewControlRefVisualService d;
     viewControlSensitivityService := viewControlSensitivityService d;
     moveToPoseService := moveToPoseService d;
     moveToModelService := moveToModelService d;
     newMoveToModel := newMoveToModel d;
     distanceMoveToModel := distanceMoveToModel d;
     horizontalFov := horizontalFov d;
     newHorizontalFOV := newHorizontalFOV d;
     camPose := camPose d;
     camClipDist := camClipDist d;
     newCamClipDist := newCamClipDist d;
     viewControlType := viewControlType d;
     camera := camera d;
     viewingAngle := viewingAngle d;
     viewAngleDirection := viewAngleDirection d;
     selectedEntities := selectedEntities d;
     moveToPoseValue := v;
     legacy := legacy d |}.

Definition set_viewControlType (v : CameraProjectionType) (d : ViewAnglePrivate) : ViewAnglePrivate :=
  {| viewAngleService := viewAngleService d;
     viewControlService := viewControlService d;
     viewControlRefVisualService := viewControlRefVisualService d;
     viewControlSensitivityService := viewControlSensitivityService d;
     moveToPoseService := moveToPoseService d;
     moveToModelService := moveToModelService d;
     newMoveToModel := newMoveToModel d;
     distanceMoveToModel := distanceMoveToModel d;
     horizontalFov := horizontalFov d;
     newHorizontalFOV := newHorizontalFOV d;
     camPose := camPose d;
     camClipDist := camClipDist d;
     newCamClipDist := newCamClipDist d;
     viewControlType := v;
     camera := camera d;
     viewingAngle := viewingAngle d;
     viewAngleDirection := viewAngleDirection d;
     selectedEntities := selectedEntities d;
     moveToPoseValue := moveToPoseValue d;
     legacy := legacy d |}.

(** What the plugin asks of the transport node: a request to a service. *)
Inductive RequestData :=
| ReqVector3d (x y z : Z)
| ReqString (data_ : string)
| ReqBoolean (data_ : bool).

Record Request := { req_service : string; req_data : RequestData }.

(** [msgs::GUICamera], as far as the move-to-model service reads it. *)
Record GUICamera := {
  msg_name : string;
  msg_position : Vector3d;
  msg_orientation : Quaterniond;
  msg_projection_type : string
}.

(** What the plugin uses of the mathematics library: the axis of a
    quaternion ([Quaterniond::ToAxis]), its Euler angles, and the
    quaternion of Euler angles (the constructor of a pose from six
    numbers). *)
Class MathEnv := {
  ToAxis : Quaterniond → Vector3d * float;
  Euler : Quaterniond → float * float * float;
  Quaterniond_of_Euler : float → float → float → Quaterniond
}.

(** [str.find(sub) != std::string::npos]. *)
Fixpoint is_prefix (sub s : string) : bool :=
  match sub, s with
  | EmptyString, _ => true
  | String a sub', String b s' => bool_decide (a = b) && is_prefix sub' s'
  | String _ _, EmptyString => false
  end.

Fixpoint contains (sub s : string) : bool :=
  is_prefix sub s ||
  match s with
  | EmptyString => false
  | String _ s' => contains sub s'
  end.

(** The loop of [ViewAngle::eventFilter] for an [EntitiesSelected] event:
    each entity of the event that [std::find] does not find among the
    selected entities is pushed at the back. *)
Fixpoint eventFilter_select (data_ : list Entity) (selected : list Entity)
  : list Entity :=
  match data_ with
  | [] => selected
  | _entity :: rest =>
      if bool_decide (_entity ∈ selected)
      then eventFilter_select rest selected
      else eventFilter_select rest (selected ++ [_entity])
  end.

(** The two selection events that [ViewAngle::eventFilter] handles. *)
Inductive SelectionEvent :=
| EntitiesSelected (data_ : list Entity)
| DeselectAllEntities.

(** The branches of [bool ViewAngle::eventFilter] for the selection
    events: [EntitiesSelected] adds the entities of the
    event, [DeselectAllEntities] clears the selected entities. *)
Definition ViewAngle_eventFilter (_event : SelectionEvent) (d : ViewAnglePrivate)
  : ViewAnglePrivate :=
  match _event with
  | EntitiesSelected data_ =>
      set_selectedEntities (eventFilter_select data_ (selectedEntities d)) d
  | DeselectAllEntities => set_selectedEntities [] d
  end.

(** How a call on the plugin ends. *)
Inductive CallEnd := CallReturned | CallNullDereference | CallUndefined.

(** What a call leaves: how it ended, the private data, the requests it
    made and what it wrote to the error log. *)
Record Call := {
  call_end : CallEnd;
  call_data : ViewAnglePrivate;
  call_requests : list Request;
  call_errors : list string
}.

(** The controller that [ViewAngle::OnViewControl] asks for. *)
Definition OnViewControl_controller (str : string) : option string :=
  if contains "Orbit" str then Some "orbit"
  else if contains "Ortho" str then Some "ortho"
  else None.

(** [void ViewAngle::OnViewControl(const QString &_controller)]. *)
Definition ViewAngle_OnViewControl (_controller : string) (d : ViewAnglePrivate) : Call :=
  match OnViewControl_controller _controller with
  | Some c =>
      {| call_end := CallReturned; call_data := d;
         call_requests := [{| req_service := viewControlService d; req_data := ReqString c |}];
         call_errors := [] |}
  | None =>
      {| call_end := CallReturned; call_data := d; call_requests := [];
         call_errors := ["Unknown view controller selected: " +:+ _controller] |}
  end.

(** The controller that [ViewAngle::OnMoveToModelService] asks for. *)
Definition OnMoveToModelService_controller (str : string) : option string :=
  if contains "Orbit" str || contains "orbit" str then Some "orbit"
  else if contains "Ortho" str || contains "ortho" str then Some "ortho"
  else None.

(** [bool ViewAngle::OnMoveToModelService(const msgs::GUICamera &_msg,
    msgs::Boolean &_res)]: the call, with the value returned and the data
    of the response. *)
Definition ViewAngle_OnMoveToModelService {math : MathEnv} (_msg : GUICamera) (d : ViewAnglePrivate)
  : Call * option (bool * bool) :=
  let failed err :=
    ({| call_end := CallReturned; call_data := d; call_requests := [];
        call_errors := [err] |}, Some (false, false)) in
  match camera d with
  | None =>
      ({| call_end := CallNullDereference; call_data := d; call_requests := [];
          call_errors := [] |}, None)
  | Some cam =>
      match VisualByName (msg_name _msg) (cam_scene cam) with
      | None => failed ("Failed to get visual with ID [" +:+ msg_name _msg +:+ "]")
      | Some visualToMove =>
          match vis_gazebo_entity visualToMove with
          | Some (VariantInt i) =>
              let entityId := Entity_of_int i in
              let axis := (ToAxis (msg_orientation _msg)).1 in
              match OnMoveToModelService_controller (msg_projection_type _msg) with
              | None =>
                  failed ("Unknown view controller selected: "
                          +:+ msg_projection_type _msg)
              | Some c =>
                  ({| call_end := CallReturned;
                      call_data :=
                        set_selectedEntities (selectedEntities d ++ [entityId])
                          (set_distanceMoveToModel (vz (msg_position _msg))
                             (set_viewAngleDirection axis
                                (set_newMoveToModel true
                                   (set_viewingAngle true d))));
                      call_requests :=
                        [{| req_service := viewControlService d; req_data := ReqString c |}];
                      call_errors := [] |}, Some (true, true))
              end
          | _ =>
              failed ("Failed to get gazebo-entity user data ["
                      +:+ vis_name visualToMove +:+ "]")
          end
      end
  end.

(** [math::equal(a, 0.0)]: the difference is at most [1e-6] (the [double]
    nearest to it). *)
Definition math_equal_0 (a : float) : bool :=
  PrimFloat.leb (PrimFloat.abs (PrimFloat.sub a 0)) 0x1.0c6f7a0b5ed8dp-20.

(** [void ViewAnglePrivate::OnComplete()].  [pop_back] on an empty vector
    is undefined. *)
Definition ViewAngle_OnComplete {math : MathEnv} (d : ViewAnglePrivate) : Call :=
  let d := set_moveToPoseValue None (set_viewingAngle false d) in
  if newMoveToModel d then
    match selectedEntities d with
    | [] => {| call_end := CallUndefined; call_data := d; call_requests := [];
               call_errors := [] |}
    | _ :: _ =>
        let d := set_newMoveToModel false
                   (set_selectedEntities (removelast (selectedEntities d)) d) in
        match camera d with
        | None => {| call_end := CallNullDereference; call_data := d;
                     call_requests := []; call_errors := [] |}
        | Some cam =>
            let cameraPose := cam_world_pose cam in
            let dir := viewAngleDirection d in
            let dist := distanceMoveToModel d in
            let distance :=
              {| vx := PrimFloat.opp (PrimFloat.mul (vx dir) dist);
                 vy := PrimFloat.opp (PrimFloat.mul (vy dir) dist);
                 vz := PrimFloat.opp (PrimFloat.mul (vz dir) dist) |} in
            let x := if negb (math_equal_0 (vx dir)) then vx distance
                     else vx (pos cameraPose) in
            let y := if negb (math_equal_0 (vy dir)) then vy distance
                     else vy (pos cameraPose) in
            let z := if negb (math_equal_0 (vz dir)) then vz distance
                     else vz (pos cameraPose) in
            let '(roll, pitch, yaw) := Euler (rot cameraPose) in
            {| call_end := CallReturned;
               call_data :=
                 set_moveToPoseValue
                   (Some {| pos := {| vx := x; vy := y; vz := z |};
                            rot := Quaterniond_of_Euler roll pitch yaw |}) d;
               call_requests := []; call_errors := [] |}
        end
    end
  else {| call_end := CallReturned; call_data := d; call_requests := [];
          call_errors := [] |}.

(** [int ViewAngle::ViewControlIndex() const]. *)
Definition ViewAngle_ViewControlIndex (d : ViewAnglePrivate) : Z :=
  if bool_decide (viewControlType d = CPT_PERSPECTIVE) then 0%Z else 1%Z.

(** [bool ViewAnglePrivate::UpdateQtViewControl()]. *)
Definition ViewAngle_UpdateQtViewControl (d : ViewAnglePrivate) : bool * ViewAnglePrivate :=
  match camera d with
  | None => (false, d)
  | Some cam =>
      if bool_decide (cam_projection cam ≠ viewControlType d)
      then (true, set_viewControlType (cam_projection cam) d)
      else (false, d)
  end.

(** An environment for examples: the axis of a quaternion is its vector
    part, and Euler angles are kept in the vector part. *)
Definition example_math : MathEnv :=
  {| ToAxis := λ q, ({| vx := qx q; vy := qy q; vz := qz q |}, qw q);
     Euler := λ q, (qx q, qy q, qz q);
     Quaterniond_of_Euler := λ r p y, {| qw := 0; qx := r; qy := p; qz := y |} |}.

(** A plugin whose camera sees one visual, [box], of entity 9, with the
    entities 4 and 5 selected. *)
Definition example_view : ViewAnglePrivate :=
  {| viewAngleService := "/gui/view_angle";
     viewControlService := "/gui/camera/view_control";
     viewControlRefVisualService := "/gui/camera/view_control/reference_visual";
     viewControlSensitivityService := "/gui/camera/view_control/sensitivity";
     moveToPoseService := "/gui/move_to/pose";
     moveToModelService := "/gui/move_to/model";
     newMoveToModel := false;
     distanceMoveToModel := 0;
     horizontalFov := 0;
     newHorizontalFOV := false;
     camPose := {| pos := Vector3d_Zero; rot := Quaterniond_Identity |};
     camClipDist := (0%float, 0%float);
     newCamClipDist := false;
     viewControlType := CPT_PERSPECTIVE;
     camera := Some {| cam_scene := [{| vis_name := "box";
                                       vis_gazebo_entity := Some (VariantInt 9) |}];
                       cam_projection := CPT_ORTHOGRAPHIC;
                       cam_world_pose := {| pos := Vector3d_Zero;
                                            rot := Quaterniond_Identity |} |};
     viewingAngle := false;
     viewAngleDirection := Vector3d_Zero;
     selectedEntities := [4; 5];
     moveToPoseValue := None;
     legacy := false |}.

Definition example_move_to_box : GUICamera :=
  {| msg_name := "box";
     msg_position := {| vx := 0; vy := 0; vz := 5 |};
     msg_orientation := {| qw := 0; qx := 1; qy := 0; qz := 0 |};
     msg_projection_type := "orbit" |}.

(** ** [gui::Shapes] (src/gui/plugins/shapes/Shapes.cc) *)

(** The double quote and the newline, which the strings below hold. *)
Definition dq : string := String (Ascii.ascii_of_N 34) EmptyString.
Definition nl : string := String (Ascii.ascii_of_N 10) EmptyString.

(** [::tolower] in the C locale, on the bytes of the string: the capital
    letters [A] to [Z] become small, every other byte is kept. *)
Definition tolower (c : Ascii.ascii) : Ascii.ascii :=
  let n := Ascii.N_of_ascii c in
  if (65 <=? n) && (n <=? 90) then Ascii.ascii_of_N (n + 32) else c.

(** [std::transform(s.begin(), s.end(), s.begin(), ::tolower)]. *)
Fixpoint transform_tolower (s : string) : string :=
  match s with
  | EmptyString => EmptyString
  | String c s' => String (tolower c) (transform_tolower s')
  end.

(** The model that [OnMode] spawns for [box]. *)
Definition box_sdf : string :=
  "<?xml version=" +:+ dq +:+ "1.0" +:+ dq +:+ "?><sdf version=" +:+ dq +:+
  "1.6" +:+ dq +:+ "><model name=" +:+ dq +:+ "box" +:+ dq +:+
  "><pose>0 0 0.5 0 0 0</pose><link name=" +:+ dq +:+ "box_link" +:+ dq +:+
  "><inertial><inertia><ixx>0.167</ixx><ixy>0</ixy><ixz>0</ixz>" +:+
  "<iyy>0.167</iyy><iyz>0</iyz><izz>0.167</izz></inertia><mass>" +:+
  "1.0</mass></inertial><collision name=" +:+ dq +:+ "box_collision" +:+ dq +:+
  "><geometry><box><size>1 1 1</size></box></geometry>" +:+
  "</collision><visual name=" +:+ dq +:+ "box_visual" +:+ dq +:+
  "><geometry><box><size>1 1 1</size></box></geometry></visual>" +:+
  "</link></model></sdf>".

(** The model that [OnMode] spawns for [sphere]. *)
Definition sphere_sdf : string :=
  "<?xml version=" +:+ dq +:+ "1.0" +:+ dq +:+ "?><sdf version=" +:+ dq +:+
  "1.6" +:+ dq +:+ "><model name=" +:+ dq +:+ "sphere" +:+ dq +:+
  "><pose>0 0 0.5 0 0 0</pose><link name=" +:+ dq +:+ "sphere_link" +:+ dq +:+
  "><inertial><inertia><ixx>0.1</ixx><ixy>0</ixy><ixz>0</ixz>" +:+
  "<iyy>0.1</iyy><iyz>0</iyz><izz>0.1</izz></inertia><mass>" +:+
  "1.0</mass></inertial><collision name=" +:+ dq +:+ "sphere_collision" +:+
  dq +:+ "><geometry><sphere><radius>0.5</radius></sphere></geometry>" +:+
  "</collision><visual name=" +:+ dq +:+ "sphere_visual" +:+ dq +:+
  "><geometry><sphere><radius>0.5</radius></sphere></geometry>" +:+
  "</visual></link></model></sdf>".

(** The model that [OnMode] spawns for [cylinder]. *)
Definition cylinder_sdf : string :=
  "<?xml version=" +:+ dq +:+ "1.0" +:+ dq +:+ "?><sdf version=" +:+ dq +:+
  "1.6" +:+ dq +:+ "><model name=" +:+ dq +:+ "cylinder" +:+ dq +:+
  "><pose>0 0 0.5 0 0 0</pose><link name=" +:+ dq +:+ "cylinder_link" +:+
  dq +:+ "><inertial><inertia><ixx>0.146</ixx><ixy>0</ixy><ixz>0</ixz>" +:+
  "<iyy>0.146</iyy><iyz>0</iyz><izz>0.125</izz></inertia><mass>" +:+
  "1.0</mass></inertial><collision name=" +:+ dq +:+ "cylinder_collision" +:+
  dq +:+ "><geometry><cylinder><radius>0.5</radius><length>" +:+
  "1.0</length></cylinder></geometry></collision><visual name=" +:+ dq +:+
  "cylinder_visual" +:+ dq +:+
  "><geometry><cylinder><radius>0.5</radius><length>" +:+
  "1.0</length></cylinder></geometry></visual></link></model>" +:+ "</sdf>".


(** What [OnMode] does: it sends a [SpawnPreviewModel] event to the main
    window, or it writes warnings and returns. *)
Inductive ShapesEffect :=
| SpawnPreviewModel (modelSdfString : string)
| Warnings (lines : list string).

(** [void Shapes::OnMode(const QString &_mode)]. *)
Definition Shapes_OnMode (_mode : string) : ShapesEffect :=
  let modelSdfString := transform_tolower _mode in
  if bool_decide (modelSdfString = "box") then SpawnPreviewModel box_sdf
  else if bool_decide (modelSdfString = "sphere") then SpawnPreviewModel sphere_sdf
  else if bool_decide (modelSdfString = "cylinder") then SpawnPreviewModel cylinder_sdf
  else
    Warnings ["Invalid model string " +:+ modelSdfString +:+ nl;
              "The valid options are:" +:+ nl;
              " - box" +:+ nl;
              " - sphere" +:+ nl;
              " - cylinder" +:+ nl].

(** * Capability resolution *)

Section resolution.
Implicit Types (u : UnitHandle) (p : SystemPluginPtr) (s : SharedPtr).
Implicit Types (e : Entity) (h : Hook) (r : SystemInternal).

(** Each data member of the hook table is set from the probe for its own
    interface, on both paths. *)
Lemma hook_entry_plugin p e h :
  hook_entry (SystemInternal_plugin p e).1 h
  = (QueryInterface (hook_interface h) p).1.
Proof. by destruct h. Qed.

Lemma hook_entry_shared s e h :
  hook_entry (SystemInternal_shared s e).1 h
  = (dynamic_cast (hook_interface h) s).1.
Proof. by destruct h. Qed.

Lemma QueryInterface_implements p h :
  is_Some (QueryInterface (hook_interface h) p).1
  ↔ implements (FromPlugin p) h = true.
Proof.
  destruct p as [pl|]; simpl.
  - case_bool_decide; split; (done || by intros [??]).
  - split; (done || by intros [??]).
Qed.

Lemma dynamic_cast_implements s h :
  is_Some (dynamic_cast (hook_interface h) s).1
  ↔ implements (FromPointer s) h = true.
Proof.
  destruct s as [o|]; simpl.
  - assert (hook_interface h ≠ System) by (by destruct h).
    split.
    + intros [q Hq]. case_bool_decide as Hd; [|done].
      apply bool_decide_eq_true. by destruct Hd.
    + intros Hi%bool_decide_eq_true. rewrite bool_decide_true by auto. eauto.
  - split; (done || by intros [??]).
Qed.

Lemma dynamic_cast_hook o h :
  (dynamic_cast (hook_interface h) (Some o)).1
  = if bool_decide (hook_interface h ∈ bases o)
    then Some {| pointee := address o; through := hook_interface h |}
    else None.
Proof.
  assert (hook_interface h ≠ System) by (by destruct h). simpl.
  by rewrite (bool_decide_ext (hook_interface h = System ∨ hook_interface h ∈ bases o)
                (hook_interface h ∈ bases o)) by tauto.
Qed.

Lemma present_is_Some r h : present r h = true ↔ is_Some (hook_entry r h).
Proof.
  unfold present. destruct (hook_entry r h); split; (done || by intros [??] || eauto).
Qed.

Lemma present_construct u e h :
  present (construct u e).1 h = implements u h.
Proof.
  apply eq_true_iff_eq. rewrite present_is_Some.
  destruct u as [p|s]; simpl construct.
  - rewrite hook_entry_plugin. apply QueryInterface_implements.
  - rewrite hook_entry_shared. apply dynamic_cast_implements.
Qed.

Lemma hook_entry_construct_None u e h :
  implements u h = false → hook_entry (construct u e).1 h = None.
Proof.
  intros Hn. pose proof (present_construct u e h) as Hp.
  rewrite Hn in Hp. unfold present in Hp.
  by destruct (hook_entry (construct u e).1 h).
Qed.

(** A resolved pointer points into the unit, at the hook's interface. *)
Lemma hook_entry_construct_Some u e h q :
  hook_entry (construct u e).1 h = Some q →
  ∃ o, unit_of u = Some o ∧ pointee q = address o ∧ through q = hook_interface h.
Proof.
  destruct u as [[pl|]|[o|]]; simpl construct.
  - rewrite hook_entry_plugin. simpl. case_bool_decide; [|done].
    intros [= <-]. by exists (plugin_instance pl).
  - rewrite hook_entry_plugin. done.
  - rewrite hook_entry_shared. simpl. case_bool_decide; [|done].
    intros [= <-]. by exists o.
  - rewrite hook_entry_shared. done.
Qed.

(** The probes a constructor makes. *)
Lemma trace_plugin p e :
  (SystemInternal_plugin p e).2
  = EvQueryInterface System :: (EvQueryInterface ∘ hook_interface <$> all_hooks).
Proof. done. Qed.

Lemma trace_shared s e :
  (SystemInternal_shared s e).2 = EvDynamicCast ∘ hook_interface <$> all_hooks.
Proof. done. Qed.

Lemma probes_construct u e h : count (is_probe h) (construct u e).2 = 1%nat.
Proof.
  destruct u as [p|s]; simpl construct;
    [rewrite trace_plugin | rewrite trace_shared]; by destruct h.
Qed.

Lemma no_hook_call_construct u e : count is_hook_call (construct u e).2 = 0%nat.
Proof.
  destruct u as [p|s]; simpl construct;
    [rewrite trace_plugin | rewrite trace_shared]; done.
Qed.

(** Storing the sdf and adding a callback leave the hook table alone; an
    assignment changes the entry of its hook and no other. *)
Lemma hook_entry_set_configureSdf sdf r h :
  hook_entry (set_configureSdf sdf r) h = hook_entry r h.
Proof. by destruct h. Qed.

Lemma hook_entry_push_update cb r h :
  hook_entry (push_update cb r) h = hook_entry r h.
Proof. by destruct h. Qed.

Lemma hook_entry_assign_hook h' q r h :
  hook_entry (assign_hook h' q r) h
  = if bool_decide (h' = h) then q else hook_entry r h.
Proof. by destruct h', h. Qed.

Lemma default_last_cons {A} (a q : A) (l : list A) :
  default a (last (q :: l)) = default q (last l).
Proof.
  destruct l as [|x l]; [done|]. rewrite last_cons.
  destruct (last (x :: l)) eqn:Hl; [done|]. by apply last_None in Hl.
Qed.

Lemma assigned_cons_assign h' q us h :
  assigned h (AssignHook h' q :: us)
  = if bool_decide (h' = h) then q :: assigned h us else assigned h us.
Proof. unfold assigned. simpl. by case_bool_decide. Qed.

(** The entry of a hook after a run is the last pointer the run assigned
    to it, and the entry the run started from if it assigned none. *)
Lemma run_hook_entry us r h :
  hook_entry (run us r).1 h = default (hook_entry r h) (last (assigned h us)).
Proof.
  revert r. induction us as [|[h'|h' q|sdf|cb] us IH]; intros r; simpl run.
  - done.
  - apply IH.
  - rewrite IH, hook_entry_assign_hook, assigned_cons_assign.
    case_bool_decide; [|done]. by rewrite default_last_cons.
  - by rewrite IH, hook_entry_set_configureSdf.
  - by rewrite IH, hook_entry_push_update.
Qed.

(** A read returns the entry the run started from or a pointer the run
    assigned to that hook. *)
Lemma run_reads us r h v :
  (h, v) ∈ (run us r).2 → v = hook_entry r h ∨ v ∈ assigned h us.
Proof.
  revert r. induction us as [|[h'|h' q|sdf|cb] us IH]; intros r; simpl run.
  - by intros ?%elem_of_nil.
  - simpl. intros [[= -> ->]|Hin]%elem_of_cons; [by left|]. by apply IH.
  - intros Hin. apply IH in Hin. rewrite hook_entry_assign_hook in Hin.
    rewrite assigned_cons_assign. case_bool_decide.
    + right. rewrite elem_of_cons. destruct Hin as [->|Hin]; [by left|by right].
    + done.
  - intros Hin. apply IH in Hin. by rewrite hook_entry_set_configureSdf in Hin.
  - intros Hin. apply IH in Hin. by rewrite hook_entry_push_update in Hin.
Qed.
End resolution.

(** ** The claims about capability resolution *)



(** C2. A hook that the unit does not implement is not an error.  For every
    unit handle, entity and hook the unit does not implement, construction
    returns a record (it has no failure case) whose entry for that hook is
    null; the record keeps the entity it was given; and if the unit
    implements none of the five hooks, all five entries are null. *)
Theorem missing_hook_is_absent_entry (u : UnitHandle) (e : Entity) (h : Hook) :
  implements u h = false →
  ∃ r t, construct u e = (r, t)
    ∧ hook_entry r h = None
    ∧ parentEntity r = e
    ∧ ((∀ h', implements u h' = false) → ∀ h', hook_entry r h' = None).
Proof.
  intros Hn. exists (construct u e).1, (construct u e).2. split_and!.
  - by destruct (construct u e).
  - by apply hook_entry_construct_None.
  - by destruct u.
  - intros Hall h'. by apply hook_entry_construct_None.
Qed.

(** C2, on the plugin of test/plugins/TestSystem.cc, which is registered
    with [System] only: the Update entry, and every entry, is null. *)
Lemma missing_hook_is_absent_entry_TestSystem :
  ∃ r t, construct (FromPlugin (TestSystem_plugin 1)) 7 = (r, t)
    ∧ hook_entry r Update = None
    ∧ parentEntity r = 7
    ∧ ((∀ h', implements (FromPlugin (TestSystem_plugin 1)) h' = false) →
       ∀ h', hook_entry r h' = None).
Proof.
  apply (missing_hook_is_absent_entry (FromPlugin (TestSystem_plugin 1)) 7 Update).
  reflexivity.
Defined.

(** C7. The two constructors resolve alike exactly when the plugin is
    registered with the hook interfaces of its class.  For one unit, held
    by a plugin and given again by shared pointer, and every entity: the
    record made from the plugin reports a hook present exactly when the
    plugin was registered with the hook's interface, the record made from
    the pointer exactly when the class of the unit derives from it; so the
    two records have the same present/absent pattern if and only if the
    registration lists, among the five hook interfaces, exactly the ones
    the class derives from, and then the two hook tables are equal entry
    for entry; both records keep the entity they were given. *)
Theorem plugin_and_pointer_resolve_alike (pl : Plugin) (e : Entity) :
  let o := plugin_instance pl in
  let rp := (SystemInternal_plugin (Some pl) e).1 in
  let rs := (SystemInternal_shared (Some o) e).1 in
  let registered_as_derived :=
    ∀ h, hook_interface h ∈ plugin_interfaces pl ↔ hook_interface h ∈ bases o in
  (∀ h, present rp h = bool_decide (hook_interface h ∈ plugin_interfaces pl))
  ∧ (∀ h, present rs h = bool_decide (hook_interface h ∈ bases o))
  ∧ ((∀ h, present rp h = present rs h) ↔ registered_as_derived)
  ∧ ((∀ h, hook_entry rp h = hook_entry rs h) ↔ registered_as_derived)
  ∧ parentEntity rp = e
  ∧ parentEntity rs = e.
Proof.
  intros o rp rs registered_as_derived. subst o rp rs registered_as_derived.
  assert (Hp : ∀ h, present (SystemInternal_plugin (Some pl) e).1 h
                    = bool_decide (hook_interface h ∈ plugin_interfaces pl)).
  { intros h. apply (present_construct (FromPlugin (Some pl))). }
  assert (Hs : ∀ h, present (SystemInternal_shared (Some (plugin_instance pl)) e).1 h
                    = bool_decide (hook_interface h ∈ bases (plugin_instance pl))).
  { intros h. apply (present_construct (FromPointer (Some (plugin_instance pl)))). }
  assert (Hpat : (∀ h, present (SystemInternal_plugin (Some pl) e).1 h
                       = present (SystemInternal_shared (Some (plugin_instance pl)) e).1 h)
                 ↔ ∀ h, hook_interface h ∈ plugin_interfaces pl
                        ↔ hook_interface h ∈ bases (plugin_instance pl)).
  { split; intros H h; specialize (H h).
    - rewrite Hp, Hs in H.
      split; intros Hin; apply (bool_decide_eq_true_2 _) in Hin;
        eapply bool_decide_eq_true_1; [by rewrite <- H|by rewrite H].
    - rewrite Hp, Hs. by apply bool_decide_ext. }
  split_and!; try done.
  split.
  - intros H. apply Hpat. intros h. unfold present. by rewrite H.
  - intros H h. rewrite hook_entry_plugin, hook_entry_shared, dynamic_cast_hook. simpl.
    by rewrite (bool_decide_ext _ _ (H h)).
Qed.

(** C7, on the system of src/systems/shader_param/ShaderParam.cc, whose
    class derives from the interfaces of Configure and PreUpdate and which
    is registered with them: the two records report the same hooks. *)
Lemma plugin_and_pointer_resolve_alike_ShaderParam :
  Forall (λ h, present (SystemInternal_plugin (ShaderParam_plugin 1) 7).1 h
               = present (SystemInternal_shared (Some (ShaderParam_object 1)) 7).1 h)
    all_hooks.
Proof.
  apply Forall_forall. intros h _. revert h.
  apply (plugin_and_pointer_resolve_alike
           {| plugin_instance := ShaderParam_object 1;
              plugin_interfaces := ShaderParam_interfaces |} 7).
  intros h. by destruct h; compute_done.
Defined.

(** C7, where the two constructors differ: a unit whose class derives from
    [ISystemUpdate] and whose plugin is registered with [System] only, as
    in [IGNITION_ADD_PLUGIN(Class, System)].  [QueryInterface] answers null
    for an interface the plugin was not registered with, [dynamic_cast]
    finds the base: the record made from the plugin reports Update absent,
    the record made from the pointer reports it present. *)
Lemma plugin_and_pointer_differ_on_unregistered_interface :
  let o := {| address := 1; bases := [ISystemUpdate] |} in
  let pl := {| plugin_instance := o; plugin_interfaces := [System] |} in
  present (SystemInternal_plugin (Some pl) 7).1 Update = false
  ∧ present (SystemInternal_shared (Some o) 7).1 Update = true
  ∧ parentEntity (SystemInternal_plugin (Some pl) 7).1
    = parentEntity (SystemInternal_shared (Some o) 7).1.
Proof. done. Qed.

(** C9. Each of the five hooks is resolved on its own.  For every unit
    handle and entity, the record reports a hook present exactly when the
    unit implements it; so the entry for a hook is the same for two units
    that agree on that hook, whatever else they implement; in particular
    ConfigureParameters is reported exactly when it is implemented, whether
    or not Configure is; and each of the four combinations of Configure and
    ConfigureParameters is met by some unit and resolved as such, on the
    plugin path and on the pointer path. *)
Theorem hooks_resolved_independently :
  (∀ u e h, present (construct u e).1 h = implements u h)
  ∧ (∀ u1 u2 e1 e2 h,
       implements u1 h = implements u2 h →
       present (construct u1 e1).1 h = present (construct u2 e2).1 h)
  ∧ (∀ u e, present (construct u e).1 ConfigureParameters
            = implements u ConfigureParameters)
  ∧ (∀ b1 b2 : bool, ∃ hs,
       ∀ a e,
         let rp := (construct (FromPlugin (plugin_with hs a)) e).1 in
         let rs := (construct (FromPointer (Some (unit_with hs a))) e).1 in
         present rp Configure = b1 ∧ present rp ConfigureParameters = b2
         ∧ present rs Configure = b1 ∧ present rs ConfigureParameters = b2).
Proof.
  split_and!.
  - apply present_construct.
  - intros u1 u2 e1 e2 h Heq. by rewrite !present_construct.
  - intros u e. apply present_construct.
  - intros b1 b2.
    exists ((if b1 then [Configure] else []) ++ (if b2 then [ConfigureParameters] else [])).
    intros a e. by destruct b1, b2.
Qed.

(** C10. What a constructor leaves besides the hook table.  For every
    non-null handle of a unit and every entity, exactly one of the two
    owning members is set, [systemPlugin] when the record is made from a
    plugin and [systemShared] when it is made from a shared pointer, and
    the other is null; [system] points to that same unit, as a [System];
    [parentEntity] is the entity given; and the constructor called no hook
    of the unit. *)
Theorem construction_sets_one_owner (u : UnitHandle) (e : Entity) :
  unit_handle u = true →
  let c := construct u e in
  ∃ o, unit_of u = Some o
    ∧ match u with
      | FromPlugin p =>
          systemPlugin c.1 = p ∧ is_Some (systemPlugin c.1) ∧ systemShared c.1 = None
      | FromPointer s =>
          systemShared c.1 = s ∧ is_Some (systemShared c.1) ∧ systemPlugin c.1 = None
      end
    ∧ system c.1 = Some {| pointee := address o; through := System |}
    ∧ parentEntity c.1 = e
    ∧ count is_hook_call c.2 = 0%nat.
Proof.
  intros Hu c. subst c. destruct u as [[pl|]|[o|]]; try done.
  - exists (plugin_instance pl). split_and!; try done.
    simpl. simpl in Hu. by rewrite Hu.
  - exists o. by split_and!.
Qed.

(** C10, on the plugin of test/plugins/TestSystem.cc. *)
Lemma construction_sets_one_owner_TestSystem :
  let u := FromPlugin (TestSystem_plugin 1) in
  let c := construct u 7 in
  ∃ o, unit_of u = Some o
    ∧ (systemPlugin c.1 = TestSystem_plugin 1
       ∧ is_Some (systemPlugin c.1) ∧ systemShared c.1 = None)
    ∧ system c.1 = Some {| pointee := address o; through := System |}
    ∧ parentEntity c.1 = 7
    ∧ count is_hook_call c.2 = 0%nat.
Proof.
  apply (construction_sets_one_owner (FromPlugin (TestSystem_plugin 1)) 7).
  reflexivity.
Defined.

(** * Component identities, the registry and the store *)

Section registry.
Implicit Types (reg : Registry) (c : ComponentType) (n name : string).

Lemma Register_fresh name vt d reg :
  reg !! name = None →
  Register name vt d reg
  = inr (<[name := {| valueType := vt; discriminator := d |}]> reg).
Proof. intros Hn. unfold Register. by rewrite Hn. Qed.

Lemma Register_same name vt d reg :
  reg !! name = Some {| valueType := vt; discriminator := d |} →
  Register name vt d reg = inr reg.
Proof. intros Hn. unfold Register. rewrite Hn. by rewrite decide_True. Qed.

Lemma Register_conflict name vt d reg c :
  reg !! name = Some c →
  c ≠ {| valueType := vt; discriminator := d |} →
  Register name vt d reg = inl DuplicateRegistration.
Proof. intros Hn Hc. unfold Register. rewrite Hn. by rewrite decide_False. Qed.

Lemma register_all_failed l e :
  foldl (λ acc nc,
           match acc with
           | inr r => Register nc.1 (valueType nc.2) (discriminator nc.2) r
           | inl e => inl e
           end) (inl e) l = inl e.
Proof. by induction l. Qed.

Lemma register_all_app l1 l2 reg reg' :
  register_all l1 reg = inr reg' →
  register_all (l1 ++ l2) reg = register_all l2 reg'.
Proof. unfold register_all. rewrite foldl_app. by intros ->. Qed.

Lemma Create_Some name reg c :
  reg !! name = Some c →
  Create name reg
  = inr {| instance_type := c; instance_value := default_value (valueType c) |}.
Proof. intros Hn. unfold Create. by rewrite Hn. Qed.

Lemma Create_None name reg :
  reg !! name = None → Create name reg = inl UnknownComponentName.
Proof. intros Hn. unfold Create. by rewrite Hn. Qed.

Lemma Create_inr name reg i :
  Create name reg = inr i → reg !! name = Some (instance_type i).
Proof.
  unfold Create. destruct (reg !! name) as [c|]; [|done]. by intros [= <-].
Qed.

(** [Lookup] finds a name of the pair if there is one. *)
Lemma Lookup_registered name reg c :
  reg !! name = Some c →
  ∃ n, Lookup (valueType c) (discriminator c) reg = inr n ∧ reg !! n = Some c.
Proof.
  intros Hn. unfold Lookup.
  assert (Hc : {| valueType := valueType c; discriminator := discriminator c |} = c)
    by by destruct c.
  rewrite Hc.
  destruct (list_find_elem_of (λ kv : string * ComponentType, kv.2 = c)
              (map_to_list reg) (name, c)) as [[j kv] Hf].
  { by apply elem_of_map_to_list. }
  { done. }
  rewrite Hf. apply list_find_Some in Hf as (Hj & Hkv & _).
  exists kv.1. split; [done|].
  apply list_elem_of_lookup_2 in Hj. destruct kv as [n c']. simpl in *. subst c'.
  by apply elem_of_map_to_list.
Qed.

Lemma Lookup_unregistered vt d reg :
  (∀ n, reg !! n ≠ Some {| valueType := vt; discriminator := d |}) →
  Lookup vt d reg = inl UnknownComponentName.
Proof.
  intros Hno. unfold Lookup.
  destruct (list_find _ _) as [[j [n c]]|] eqn:Hf; [|done].
  apply list_find_Some in Hf as (Hj & Hkv & _). simpl in Hkv. subst c.
  apply list_elem_of_lookup_2, elem_of_map_to_list in Hj. by destruct (Hno n).
Qed.

Lemma register_LinearVelocityCmd_hh :
  register_all LinearVelocityCmd_hh ∅ = inr velocity_registry.
Proof. reflexivity. Qed.

Lemma velocity_registry_invariant : registry_invariant velocity_registry.
Proof.
  intros n1 n2 c H1 H2. unfold velocity_registry in *.
  rewrite !lookup_insert in H1. rewrite !lookup_insert in H2.
  repeat case_decide; simplify_eq; try done; by rewrite lookup_empty in *.
Qed.
End registry.

Section store.
Implicit Types (ecm : Store) (e : Entity) (c : ComponentType) (v : Data).

Lemma SetComponentData_attached e c v ecm :
  is_Some (ecm !! (e, c)) →
  SetComponentData e c v ecm = Some (<[(e, c) := v]> ecm).
Proof. intros [v' Hv]. unfold SetComponentData. by rewrite Hv. Qed.

Lemma SetComponentData_missing e c v ecm :
  ecm !! (e, c) = None → SetComponentData e c v ecm = None.
Proof. intros Hv. unfold SetComponentData. by rewrite Hv. Qed.

(** Two writes through two component types of one entity. *)
Lemma write_both e c1 c2 v1 v2 ecm :
  c1 ≠ c2 →
  is_Some (ecm !! (e, c1)) → is_Some (ecm !! (e, c2)) →
  ∃ ecm1 ecm2,
    SetComponentData e c1 v1 ecm = Some ecm1
    ∧ SetComponentData e c2 v2 ecm1 = Some ecm2
    ∧ ComponentData e c1 ecm2 = Some v1
    ∧ ComponentData e c2 ecm2 = Some v2.
Proof.
  intros Hne H1 H2.
  exists (<[(e, c1) := v1]> ecm), (<[(e, c2) := v2]> (<[(e, c1) := v1]> ecm)).
  assert ((e, c1) ≠ (e, c2)) by congruence.
  split_and!.
  - by apply SetComponentData_attached.
  - apply SetComponentData_attached. by rewrite lookup_insert_ne.
  - unfold ComponentData. rewrite lookup_insert_ne by done. apply lookup_insert_eq.
  - unfold ComponentData. apply lookup_insert_eq.
Qed.

Lemma HasComponent_false e c ecm :
  HasComponent e c ecm = false ↔ ComponentData e c ecm = None.
Proof.
  unfold HasComponent, ComponentData. rewrite bool_decide_eq_false.
  by rewrite eq_None_not_Some.
Qed.

Lemma HasComponent_true e c ecm :
  HasComponent e c ecm = true ↔ is_Some (ComponentData e c ecm).
Proof. unfold HasComponent, ComponentData. by rewrite bool_decide_eq_true. Qed.

Lemma ComponentData_Remove e c ecm :
  ComponentData e c (RemoveComponent e c ecm) = None.
Proof. unfold ComponentData, RemoveComponent. apply lookup_delete_eq. Qed.
End store.

(** ** The claims about the registry and the store *)

(** C3. Component types over one value type do not see each other's
    value.  For two registered names whose component types have the same
    value type and different discriminators, with the instances the
    registry makes for them attached to one entity: writing [v1] through
    the first and [v2] through the second, in either order, succeeds, and
    afterwards the read through the first returns [v1] and the read through
    the second returns [v2]; with [v1] and [v2] distinct, neither read
    returns the value written through the other. *)
Theorem same_value_type_components_do_not_alias
    (reg : Registry) (ecm : Store) (e : Entity) (n1 n2 : string)
    (i1 i2 : Instance) (v1 v2 : Data) :
  Create n1 reg = inr i1 →
  Create n2 reg = inr i2 →
  valueType (instance_type i1) = valueType (instance_type i2) →
  discriminator (instance_type i1) ≠ discriminator (instance_type i2) →
  v1 ≠ v2 →
  let c1 := instance_type i1 in
  let c2 := instance_type i2 in
  let ecm0 := attach e i2 (attach e i1 ecm) in
  (∃ ecm1 ecm2,
      SetComponentData e c1 v1 ecm0 = Some ecm1
      ∧ SetComponentData e c2 v2 ecm1 = Some ecm2
      ∧ ComponentData e c1 ecm2 = Some v1
      ∧ ComponentData e c2 ecm2 = Some v2
      ∧ ComponentData e c1 ecm2 ≠ Some v2
      ∧ ComponentData e c2 ecm2 ≠ Some v1)
  ∧ (∃ ecm1 ecm2,
      SetComponentData e c2 v2 ecm0 = Some ecm1
      ∧ SetComponentData e c1 v1 ecm1 = Some ecm2
      ∧ ComponentData e c1 ecm2 = Some v1
      ∧ ComponentData e c2 ecm2 = Some v2
      ∧ ComponentData e c1 ecm2 ≠ Some v2
      ∧ ComponentData e c2 ecm2 ≠ Some v1).
Proof.
  intros _ _ _ Hd Hv c1 c2 ecm0. subst c1 c2 ecm0.
  unfold attach, CreateComponent.
  generalize (instance_value i1), (instance_value i2).
  generalize dependent (instance_type i2). generalize dependent (instance_type i1).
  intros c1 c2 Hd d1 d2.
  set (ecm0 := <[(e, c2) := d2]> (<[(e, c1) := d1]> ecm)).
  assert (Hne : c1 ≠ c2) by (intros Heq; apply Hd; by rewrite <- Heq).
  assert (Hk : (e, c1) ≠ (e, c2)) by congruence.
  assert (H1 : is_Some (ecm0 !! (e, c1))).
  { subst ecm0. rewrite lookup_insert_ne by done. rewrite lookup_insert_eq. eauto. }
  assert (H2 : is_Some (ecm0 !! (e, c2))).
  { subst ecm0. rewrite lookup_insert_eq. eauto. }
  split.
  - destruct (write_both e c1 c2 v1 v2 ecm0 Hne H1 H2) as (m1 & m2 & ? & ? & R1 & R2).
    exists m1, m2. rewrite R1, R2. split_and!; congruence.
  - destruct (write_both e c2 c1 v2 v1 ecm0 (not_eq_sym Hne) H2 H1)
      as (m1 & m2 & ? & ? & R2 & R1).
    exists m1, m2. rewrite R1, R2. split_and!; congruence.
Qed.

Lemma velocity_x_ne_y : velocity_x ≠ velocity_y.
Proof.
  intros H.
  apply (f_equal (λ d, match d with DVector3d v => PrimFloat.eqb (vx v) 1 | _ => true end)) in H.
  vm_compute in H. discriminate.
Qed.

(** C3, on the two component types of LinearVelocityCmd.hh, attached to
    entity 1 of an empty store, with (1,0,0) written through
    LinearVelocityCmd and (0,1,0) through WorldLinearVelocityCmd. *)
Lemma same_value_type_components_do_not_alias_velocity :
  let c1 := LinearVelocityCmd in
  let c2 := WorldLinearVelocityCmd in
  let ecm0 :=
    CreateComponent 1 c2 (DVector3d Vector3d_Zero)
      (CreateComponent 1 c1 (DVector3d Vector3d_Zero) ∅) in
  (∃ ecm1 ecm2,
      SetComponentData 1 c1 velocity_x ecm0 = Some ecm1
      ∧ SetComponentData 1 c2 velocity_y ecm1 = Some ecm2
      ∧ ComponentData 1 c1 ecm2 = Some velocity_x
      ∧ ComponentData 1 c2 ecm2 = Some velocity_y
      ∧ ComponentData 1 c1 ecm2 ≠ Some velocity_y
      ∧ ComponentData 1 c2 ecm2 ≠ Some velocity_x)
  ∧ (∃ ecm1 ecm2,
      SetComponentData 1 c2 velocity_y ecm0 = Some ecm1
      ∧ SetComponentData 1 c1 velocity_x ecm1 = Some ecm2
      ∧ ComponentData 1 c1 ecm2 = Some velocity_x
      ∧ ComponentData 1 c2 ecm2 = Some velocity_y
      ∧ ComponentData 1 c1 ecm2 ≠ Some velocity_y
      ∧ ComponentData 1 c2 ecm2 ≠ Some velocity_x).
Proof.
  apply (same_value_type_components_do_not_alias velocity_registry ∅ 1
           LinearVelocityCmd_name WorldLinearVelocityCmd_name
           {| instance_type := LinearVelocityCmd;
              instance_value := DVector3d Vector3d_Zero |}
           {| instance_type := WorldLinearVelocityCmd;
              instance_value := DVector3d Vector3d_Zero |}
           velocity_x velocity_y).
  - reflexivity.
  - reflexivity.
  - reflexivity.
  - simpl. discriminate.
  - exact velocity_x_ne_y.
Defined.




(** C5. The failures of [Register] and [Create].  In every registry
    state: registering a name again with the identity it already has
    succeeds and leaves the registry as it was; registering a name that
    is there with another identity fails with [DuplicateRegistration],
    also when the registration is one of a header's registrations run in
    order after others that succeeded; [Create] on a name that is not
    registered fails with [UnknownComponentName], and [Create] has no
    other failure. *)
Theorem Register_and_Create_failures
    (reg : Registry) (name : string) (vt : ValueType) (d : string) :
  let c := {| valueType := vt; discriminator := d |} in
  (reg !! name = Some c → Register name vt d reg = inr reg)
  ∧ (∀ c', reg !! name = Some c' → c' ≠ c →
       Register name vt d reg = inl DuplicateRegistration)
  ∧ (∀ c' before after reg0,
       register_all before reg0 = inr reg →
       reg !! name = Some c' → c' ≠ c →
       register_all (before ++ (name, c) :: after) reg0 = inl DuplicateRegistration)
  ∧ (reg !! name = None → Create name reg = inl UnknownComponentName)
  ∧ (∀ err, Create name reg = inl err →
       err = UnknownComponentName ∧ reg !! name = None).
Proof.
  intros c. split_and!.
  - apply Register_same.
  - intros c'. apply Register_conflict.
  - intros c' before after reg0 Hb Hn Hc.
    rewrite (register_all_app _ _ _ _ Hb). unfold register_all. simpl.
    rewrite (Register_conflict _ _ _ _ _ Hn Hc). apply register_all_failed.
  - apply Create_None.
  - intros err. unfold Create. destruct (reg !! name); [done|]. by intros [= <-].
Qed.

(** C5, on the registry of LinearVelocityCmd.hh: registering
    LinearVelocityCmd again under its name changes nothing; registering
    WorldLinearVelocityCmd under the name of LinearVelocityCmd fails with
    [DuplicateRegistration], directly and as the third registration of a
    run; creating an unregistered name fails with [UnknownComponentName]. *)
Lemma Register_and_Create_failures_velocity :
  Register LinearVelocityCmd_name Vector3d_t "LinearVelocityCmdTag" velocity_registry
  = inr velocity_registry
  ∧ Register LinearVelocityCmd_name Vector3d_t "WorldLinearVelocityCmdTag" velocity_registry
    = inl DuplicateRegistration
  ∧ register_all
      (LinearVelocityCmd_hh ++ (LinearVelocityCmd_name, WorldLinearVelocityCmd) :: []) ∅
    = inl DuplicateRegistration
  ∧ Create "unregistered" velocity_registry = inl UnknownComponentName.
Proof.
  split_and!.
  - apply (Register_and_Create_failures velocity_registry
             LinearVelocityCmd_name Vector3d_t "LinearVelocityCmdTag").
    reflexivity.
  - apply (Register_and_Create_failures velocity_registry
             LinearVelocityCmd_name Vector3d_t "WorldLinearVelocityCmdTag")
      with (c' := LinearVelocityCmd).
    + reflexivity.
    + discriminate.
  - apply (Register_and_Create_failures velocity_registry
             LinearVelocityCmd_name Vector3d_t "WorldLinearVelocityCmdTag")
      with (c' := LinearVelocityCmd).
    + reflexivity.
    + reflexivity.
    + discriminate.
  - apply (Register_and_Create_failures velocity_registry
             "unregistered" Vector3d_t "").
    reflexivity.
Defined.

(** * The sensor wrapper and the Configure phase *)

(** C6. The accessors of the sensor wrapper.  For every wrapper and every
    store: [Name], [Pose], [Topic] and [Parent] return an optional (they
    have no failure case), and return the absent one whenever the wrapped
    entity does not have the component they read; they keep nothing from
    an earlier call, so once the component is removed from the store the
    accessor returns absent, and after [ResetEntity] the accessor answers
    for the new entity; [Valid] returns true only when the wrapped entity
    has the sensor marker in the store. *)
Theorem Sensor_accessors_absent_without_component (s : Sensor) (ecm : Store) :
  (HasComponent (id s) components_Name ecm = false → Name s ecm = None)
  ∧ (HasComponent (id s) components_Pose ecm = false → Pose s ecm = None)
  ∧ (HasComponent (id s) components_SensorTopic ecm = false → Topic s ecm = None)
  ∧ (HasComponent (id s) components_ParentEntity ecm = false → Parent s ecm = None)
  ∧ (Name s (RemoveComponent (id s) components_Name ecm) = None
     ∧ Pose s (RemoveComponent (id s) components_Pose ecm) = None
     ∧ Topic s (RemoveComponent (id s) components_SensorTopic ecm) = None
     ∧ Parent s (RemoveComponent (id s) components_ParentEntity ecm) = None)
  ∧ (∀ e', Name (ResetEntity e' s) ecm = Name (Sensor_new e') ecm
           ∧ Pose (ResetEntity e' s) ecm = Pose (Sensor_new e') ecm
           ∧ Topic (ResetEntity e' s) ecm = Topic (Sensor_new e') ecm
           ∧ Parent (ResetEntity e' s) ecm = Parent (Sensor_new e') ecm)
  ∧ (Valid s ecm = true → HasComponent (id s) components_Sensor ecm = true)
  ∧ (HasComponent (id s) components_Sensor ecm = false → Valid s ecm = false).
Proof.
  unfold Name, Pose, Topic, Parent, Valid. split_and!; try done.
  - by intros ->%HasComponent_false.
  - by intros ->%HasComponent_false.
  - by intros ->%HasComponent_false.
  - by intros ->%HasComponent_false.
  - by rewrite ComponentData_Remove.
  - by rewrite ComponentData_Remove.
  - by rewrite ComponentData_Remove.
  - by rewrite ComponentData_Remove.
Qed.

(** C6, on that store: the wrapper of entity 5 is valid and has no pose
    and no topic; the wrapper of entity 6, which is not in the store, is
    not valid and every accessor returns absent. *)
Lemma Sensor_accessors_absent_without_component_example :
  (Pose (Sensor_new 5) sensor_store = None
   ∧ Topic (Sensor_new 5) sensor_store = None
   ∧ HasComponent 5 components_Sensor sensor_store = true)
  ∧ (Name (Sensor_new 6) sensor_store = None
     ∧ Parent (Sensor_new 6) sensor_store = None
     ∧ Valid (Sensor_new 6) sensor_store = false).
Proof.
  pose proof (Sensor_accessors_absent_without_component (Sensor_new 5) sensor_store)
    as (_ & Hpose & Htopic & _ & _ & _ & Hvalid & _).
  pose proof (Sensor_accessors_absent_without_component (Sensor_new 6) sensor_store)
    as (Hname & _ & _ & Hparent & _ & _ & _ & Hinvalid).
  split; split_and!.
  - apply Hpose. reflexivity.
  - apply Htopic. reflexivity.
  - apply Hvalid. reflexivity.
  - apply Hname. reflexivity.
  - apply Hparent. reflexivity.
  - apply Hinvalid. reflexivity.
Defined.

(** C8. The Configure payload is cached and replayed.  For every record
    and payload: after Configure the payload is in [configureSdf] as it
    was given; a second Configure, which replays the cache, delivers to
    the unit exactly what the first delivered (the same payload, with the
    same entity, when the record has a Configure hook) and leaves the same
    payload cached; neither call touches the hook table. *)
Theorem Configure_payload_cached_and_replayed (r : SystemInternal) (payload : SdfElement) :
  let c1 := invoke_Configure payload r in
  let c2 := reinvoke_Configure c1.1 in
  configureSdf c1.1 = Some payload
  ∧ configureSdf c2.1 = Some payload
  ∧ delivered c2.2 = delivered c1.2
  ∧ (∀ p, configure r = Some p →
       delivered c1.2 = [(pointee p, parentEntity r, Some payload)]
       ∧ delivered c2.2 = [(pointee p, parentEntity r, Some payload)])
  ∧ (configure r = None → delivered c1.2 = [] ∧ delivered c2.2 = [])
  ∧ (∀ h, hook_entry c1.1 h = hook_entry r h ∧ hook_entry c2.1 h = hook_entry r h).
Proof.
  intros c1 c2. subst c1 c2. unfold reinvoke_Configure, invoke_Configure.
  destruct (configure r) as [p|] eqn:Hc; simpl; rewrite Hc; simpl.
  - split_and!; try done. by intros p' [= <-].
  - by split_and!.
Qed.

(** C8, on the record made from the plugin of ShaderParam.cc, which has a
    Configure hook, for entity 7. *)
Lemma Configure_payload_cached_and_replayed_ShaderParam :
  let r := (SystemInternal_plugin (ShaderParam_plugin 1) 7).1 in
  let c1 := invoke_Configure "<plugin/>" r in
  let c2 := reinvoke_Configure c1.1 in
  configureSdf c1.1 = Some "<plugin/>"
  ∧ configureSdf c2.1 = Some "<plugin/>"
  ∧ delivered c1.2 = [(1, 7, Some "<plugin/>")]
  ∧ delivered c2.2 = [(1, 7, Some "<plugin/>")].
Proof.
  intros r c1 c2.
  pose proof (Configure_payload_cached_and_replayed r "<plugin/>")
    as (Hc1 & Hc2 & _ & Hd & _).
  destruct (Hd {| pointee := 1; through := ISystemConfigure |}) as [Hd1 Hd2].
  { reflexivity. }
  split_and!.
  - exact Hc1.
  - exact Hc2.
  - exact Hd1.
  - exact Hd2.
Defined.

(** * ShaderParam *)

Section shader_param.
Context {env : ShaderParamEnv}.
Implicit Types (d : ShaderParamPrivate) (sdf e : Element) (l : ElementPtr).

Lemma Configure_args_spec l args :
  Configure_args l args = args ++ (elem_value <$> l).
Proof.
  revert args. induction l as [|a l IH]; intros args; simpl.
  - by rewrite app_nil_r.
  - by rewrite IH, <- app_assoc.
Qed.

Lemma Configure_params_spec l params err :
  Configure_params l params err
  = (params ++ (Configure_param <$> filter (λ p, param_ok p = true) l),
     err ++ (const msg_param <$> filter (λ p, param_ok p = false) l)).
Proof.
  revert params err. induction l as [|p l IH]; intros params err.
  - simpl. by rewrite !app_nil_r.
  - cbn [Configure_params]. rewrite <- negb_andb. fold (param_ok p).
    destruct (param_ok p) eqn:Hp; cbn [negb]; rewrite IH.
    + rewrite filter_cons_True, filter_cons_False by congruence.
      by rewrite fmap_cons, <- app_assoc.
    + rewrite filter_cons_False, filter_cons_True by congruence.
      by rewrite fmap_cons, <- app_assoc.
Qed.

Lemma Configure_shaders_stuck fuel path e l m err :
  shader_ok e = false → Configure_shaders fuel path (e :: l) m err = None.
Proof.
  intros Hbad. revert err. induction fuel as [|fuel IH]; intros err; simpl; [done|].
  unfold shader_ok in Hbad.
  destruct (HasElement "vertex" e), (HasElement "fragment" e); simpl in *;
    try done; apply IH.
Qed.

Lemma Configure_shaders_run fuel path l m err :
  Forall (λ e, shader_ok e = true) l →
  (length l < fuel)%nat →
  Configure_shaders fuel path l m err
  = Some (foldl (λ m e, <[shader_api e := Configure_shader path e]> m) m l, err).
Proof.
  intros Hok. revert fuel m.
  induction Hok as [|e l He Hl IH]; intros fuel m Hfuel;
    destruct fuel as [|fuel]; simpl in *; try lia; [done|].
  unfold shader_ok in He. apply andb_true_iff in He as [-> ->]. simpl.
  apply IH. lia.
Qed.

Lemma Configure_shaders_None fuel path l m err :
  ¬ Forall (λ e, shader_ok e = true) l →
  Configure_shaders fuel path l m err = None.
Proof.
  revert fuel m. induction l as [|e l IH]; intros fuel m Hbad.
  - by destruct Hbad.
  - destruct (shader_ok e) eqn:He.
    + destruct fuel as [|fuel]; simpl; [done|].
      unfold shader_ok in He. apply andb_true_iff in He as [Hv Hf].
      rewrite Hv, Hf. simpl. apply IH. intros Hl. apply Hbad.
      constructor; [|done]. unfold shader_ok. by rewrite Hv, Hf.
    + by apply Configure_shaders_stuck.
Qed.

Lemma Configure_shaders_short fuel path l m err r :
  Forall (λ e, shader_ok e = true) l →
  ¬ (length l < fuel)%nat →
  Configure_shaders fuel path l m err = Some r → False.
Proof.
  intros Hok. revert fuel m. induction Hok as [|e l He Hl IH]; intros fuel m Hf Hr.
  - destruct fuel; simpl in *; [done|lia].
  - destruct fuel as [|fuel]; simpl in *; [done|].
    unfold shader_ok in He. apply andb_true_iff in He as [Hv Hfr].
    rewrite Hv, Hfr in Hr. simpl in Hr. eapply IH; [|done]. lia.
Qed.

Lemma Configure_shaders_err fuel path l m err r :
  Configure_shaders fuel path l m err = Some r → r.2 = err.
Proof.
  intros Hr. destruct (decide (Forall (λ e, shader_ok e = true) l)) as [Hok|Hbad].
  - destruct (decide (length l < fuel)%nat) as [Hf|Hf].
    + rewrite Configure_shaders_run in Hr by done. by simplify_eq.
    + exfalso. by apply (Configure_shaders_short _ _ _ _ _ _ Hok Hf Hr).
  - by rewrite Configure_shaders_None in Hr.
Qed.

(** A map filled by the shader loop is not empty. *)
Lemma shaders_foldl_nonempty path l (m : gmap string ShaderUri) :
  l ≠ [] →
  foldl (λ m e, <[shader_api e := Configure_shader path e]> m) m l ≠ ∅.
Proof.
  intros Hl. destruct (decide (l = [])) as [|_]; [done|].
  revert m. induction l as [|e l IH]; intros m; [done|]. simpl.
  destruct l as [|e' l'].
  - simpl. apply insert_non_empty.
  - apply IH. done.
Qed.

(** What the shader loop leaves for a language: the entry of the last
    [<shader>] of that language, or what was there. *)
Lemma shaders_foldl_lookup path l (m : gmap string ShaderUri) lang :
  foldl (λ m e, <[shader_api e := Configure_shader path e]> m) m l !! lang
  = match last (filter (λ e, shader_api e = lang) l) with
    | Some e => Some (Configure_shader path e)
    | None => m !! lang
    end.
Proof.
  revert m. induction l as [|e l IH]; intros m; simpl; [done|].
  rewrite IH. destruct (decide (shader_api e = lang)) as [He|He].
  - rewrite filter_cons_True by done.
    destruct (filter _ l) as [|e' l'] eqn:Hf.
    + simpl. by rewrite <- He, lookup_insert_eq.
    + rewrite last_cons_cons.
      destruct (last (e' :: l')) eqn:Hl; [done|]. by apply last_None in Hl.
  - rewrite filter_cons_False by done.
    destruct (last _); [done|]. by rewrite lookup_insert_ne.
Qed.

(** The parts of a call of [Configure] that got past the model path. *)
Lemma ShaderParam_Configure_unfold fuel _entity sdf _ecm d :
  let params := shaderParams d
                ++ (Configure_param <$> filter (λ p, param_ok p = true) (GetElement "param" sdf)) in
  let err := const msg_param <$> filter (λ p, param_ok p = false) (GetElement "param" sdf) in
  let d1 := set_shaderParams params d in
  ShaderParam_Configure fuel _entity sdf _ecm d
  = match (if bool_decide (modelPath d = "")
           then SourceFilePath _ecm (topLevelModel _entity _ecm)
           else Some (modelPath d)) with
    | None => Some {| ending := ThrewBadOptionalAccess; data := d1; ignerr := err |}
    | Some path =>
        let d2 := set_modelPath path d1 in
        if negb (HasElement "shader" sdf)
        then Some {| ending := Returned; data := d2; ignerr := err ++ [msg_missing_shader] |}
        else
          match Configure_shaders fuel path (GetElement "shader" sdf) (shaders d) err with
          | None => None
          | Some (shaders_, err') =>
              let d3 := set_shaders shaders_ d2 in
              if bool_decide (shaders_ = ∅)
              then Some {| ending := Returned; data := d3;
                           ignerr := err' ++ [msg_no_valid_shaders] |}
              else
                match NameComponent _ecm _entity with
                | None => Some {| ending := NullDereference;
                                  data := set_sp_entity _entity d3; ignerr := err' |}
                | Some name =>
                    Some {| ending := Returned;
                            data := set_connection true
                                      (set_visualName name (set_sp_entity _entity d3));
                            ignerr := err' |}
                end
          end
    end.
Proof.
  intros params err d1. unfold ShaderParam_Configure.
  assert (Hp : (if HasElement "param" sdf
                then Configure_params (GetElement "param" sdf) (shaderParams d) []
                else (shaderParams d, [])) = (params, err)).
  { unfold HasElement. destruct (GetElement "param" sdf) as [|p l] eqn:Hl.
    - subst params err. simpl. by rewrite app_nil_r.
    - by rewrite Configure_params_spec. }
  rewrite Hp. done.
Qed.

Lemma HasElement_true name e : HasElement name e = true ↔ GetElement name e ≠ [].
Proof. unfold HasElement. by destruct (GetElement name e). Qed.
End shader_param.

(** ** Properties of [ShaderParam::Configure] *)

Section shader_param_configure.
Context {env : ShaderParamEnv}.

(** X1. [Configure] returns exactly when every [<shader>] is complete.
    When the model path is known (it is already set, or the top-level
    model has a source file path), then: if every [<shader>] element of
    the plugin has a [<vertex>] and a [<fragment>], the call ends within
    one loop test per element plus one; and if some [<shader>] lacks
    one of them, the loop over the shaders never advances past it and the
    call does not end, whatever the number of iterations allowed. *)
Theorem ShaderParam_Configure_ends_iff_shaders_complete
    (fuel : nat) (_entity : Entity) (sdf : Element) (_ecm : ECM) (d : ShaderParamPrivate) :
  modelPath d ≠ "" ∨ is_Some (SourceFilePath _ecm (topLevelModel _entity _ecm)) →
  let l := GetElement "shader" sdf in
  (Forall (λ e, shader_ok e = true) l →
   is_Some (ShaderParam_Configure (S (length l)) _entity sdf _ecm d))
  ∧ (¬ Forall (λ e, shader_ok e = true) l →
     ShaderParam_Configure fuel _entity sdf _ecm d = None).
Proof.
  intros Hpath l. subst l. rewrite !ShaderParam_Configure_unfold.
  assert (∃ path, (if bool_decide (modelPath d = "")
                   then SourceFilePath _ecm (topLevelModel _entity _ecm)
                   else Some (modelPath d)) = Some path) as [path ->].
  { case_bool_decide as Hm; [|eauto]. destruct Hpath as [?|[p Hp]]; [done|eauto]. }
  split.
  - intros Hok. cbv zeta. destruct (HasElement "shader" sdf); cbn [negb]; [|by eexists].
    rewrite Configure_shaders_run by (done || lia).
    case_bool_decide; [by eexists|]. destruct (NameComponent _ecm _entity); by eexists.
  - intros Hbad. cbv zeta.
    assert (HasElement "shader" sdf = true) as ->.
    { apply HasElement_true. intros Hnil. apply Hbad. by rewrite Hnil. }
    simpl. by rewrite Configure_shaders_None.
Qed.

(** X2. The exit "No valid shaders" is never taken.  Whenever [Configure]
    ends, that message has not been written; and if the plugin has a
    [<shader>] element and the call returned, the map of shaders is not
    empty, the system is connected to the scene update event, and the
    entity and the visual's name are set from the entity configured. *)
Theorem ShaderParam_Configure_never_without_shaders
    (fuel : nat) (_entity : Entity) (sdf : Element) (_ecm : ECM)
    (d : ShaderParamPrivate) (o : Outcome) :
  ShaderParam_Configure fuel _entity sdf _ecm d = Some o →
  (msg_no_valid_shaders ∉ ignerr o)
  ∧ (HasElement "shader" sdf = true → ending o = Returned →
     shaders (data o) ≠ ∅
     ∧ connection (data o) = true
     ∧ sp_entity (data o) = _entity
     ∧ NameComponent _ecm _entity = Some (visualName (data o))).
Proof.
  rewrite ShaderParam_Configure_unfold. cbv zeta.
  set (err := const msg_param <$> _).
  assert (Herr : msg_no_valid_shaders ∉ err).
  { subst err. intros (p & Heq & _)%list_elem_of_fmap. discriminate Heq. }
  destruct (if bool_decide _ then _ else _) as [path|].
  2:{ intros [= <-]. split; [done|]. by intros _ [=]. }
  destruct (HasElement "shader" sdf) eqn:Hsh; simpl.
  2:{ intros [= <-]. simpl. split; [|done].
      rewrite elem_of_app, list_elem_of_singleton. intros [?|?]; [done|discriminate]. }
  destruct (Configure_shaders _ _ _ _ _) as [[m err']|] eqn:Hloop; [|done].
  assert (err' = err) as -> by apply (Configure_shaders_err _ _ _ _ _ _ Hloop).
  assert (Hm : m ≠ ∅).
  { destruct (decide (Forall (λ e, shader_ok e = true) (GetElement "shader" sdf))) as [Hok|Hbad].
    - destruct (decide (length (GetElement "shader" sdf) < fuel)%nat) as [Hf|Hf].
      + rewrite Configure_shaders_run in Hloop by done. injection Hloop as <-.
        apply shaders_foldl_nonempty. by apply HasElement_true.
      + exfalso. by apply (Configure_shaders_short _ _ _ _ _ _ Hok Hf Hloop).
    - by rewrite Configure_shaders_None in Hloop. }
  rewrite bool_decide_false by done.
  destruct (NameComponent _ecm _entity) as [name|]; intros [= <-]; simpl.
  - by split.
  - split; [done|]. by intros _ [=].
Qed.

(** X3. What [Configure] queues.  However a call of [Configure] ends
    (return, exception or null dereference), the shader params are the
    ones that were there followed, in document order, by one entry for
    each [<param>] that has both [<shader>] and [<name>]; a [<param>]
    without one of them is skipped and reported once, and does not stop
    the ones after it. *)
Theorem ShaderParam_Configure_queues_complete_params
    (fuel : nat) (_entity : Entity) (sdf : Element) (_ecm : ECM)
    (d : ShaderParamPrivate) (o : Outcome) :
  ShaderParam_Configure fuel _entity sdf _ecm d = Some o →
  shaderParams (data o)
  = shaderParams d
    ++ (Configure_param <$> filter (λ p, param_ok p = true) (GetElement "param" sdf))
  ∧ length (filter (λ m, m = msg_param) (ignerr o))
    = length (filter (λ p, param_ok p = false) (GetElement "param" sdf))
  ∧ timeParams (data o) = timeParams d.
Proof.
  rewrite ShaderParam_Configure_unfold. cbv zeta.
  set (err := const msg_param <$> _).
  assert (Herr : length (filter (λ m, m = msg_param) err)
                 = length (filter (λ p, param_ok p = false) (GetElement "param" sdf))).
  { subst err. generalize (filter (λ p, param_ok p = false) (GetElement "param" sdf)).
    intros l. induction l as [|p l IH]; [done|].
    rewrite fmap_cons, filter_cons_True by done. simpl. by rewrite IH. }
  destruct (if bool_decide _ then _ else _) as [path|]; [|by intros [= <-]].
  destruct (HasElement "shader" sdf); simpl.
  2:{ intros [= <-]. simpl. split_and!; try done.
      rewrite filter_app, length_app, Herr.
      rewrite filter_cons_False, filter_nil by done. simpl. lia. }
  destruct (Configure_shaders _ _ _ _ _) as [[m err']|] eqn:Hloop; [|done].
  assert (err' = err) as -> by apply (Configure_shaders_err _ _ _ _ _ _ Hloop).
  case_bool_decide.
  - intros [= <-]. simpl. split_and!; try done.
    rewrite filter_app, length_app, Herr.
    rewrite filter_cons_False, filter_nil by done. simpl. lia.
  - destruct (NameComponent _ecm _entity); by intros [= <-].
Qed.

(** X4. The last [<shader>] of a language wins.  When [Configure] ends
    without the exception of the model path, on a plugin that has a
    [<shader>] element, the entry of the shader map for a language is the
    one made from the last [<shader>] element of that language (the
    language is the [language] attribute, [glsl] without it), with its
    files resolved against the model path; for a language that no element
    names, the entry is what it was before. *)
Theorem ShaderParam_Configure_last_shader_wins
    (fuel : nat) (_entity : Entity) (sdf : Element) (_ecm : ECM)
    (d : ShaderParamPrivate) (o : Outcome) (lang : string) :
  ShaderParam_Configure fuel _entity sdf _ecm d = Some o →
  ending o ≠ ThrewBadOptionalAccess →
  HasElement "shader" sdf = true →
  shaders (data o) !! lang
  = match last (filter (λ s, shader_api s = lang) (GetElement "shader" sdf)) with
    | Some s => Some (Configure_shader (modelPath (data o)) s)
    | None => shaders d !! lang
    end.
Proof.
  rewrite ShaderParam_Configure_unfold. cbv zeta. intros Ho Hend Hsh. revert Ho.
  destruct (if bool_decide _ then _ else _) as [path|].
  2:{ intros [= <-]. by destruct Hend. }
  rewrite Hsh. simpl.
  destruct (Configure_shaders _ _ _ _ _) as [[m err']|] eqn:Hloop; [|done].
  assert (Hm : m = foldl (λ m e, <[shader_api e := Configure_shader path e]> m)
                     (shaders d) (GetElement "shader" sdf)).
  { destruct (decide (Forall (λ e, shader_ok e = true) (GetElement "shader" sdf))) as [Hok|Hbad].
    - destruct (decide (length (GetElement "shader" sdf) < fuel)%nat) as [Hf|Hf].
      + rewrite Configure_shaders_run in Hloop by done. by injection Hloop as <- _.
      + exfalso. by apply (Configure_shaders_short _ _ _ _ _ _ Hok Hf Hloop).
    - by rewrite Configure_shaders_None in Hloop. }
  assert (Hl := shaders_foldl_lookup path (GetElement "shader" sdf) (shaders d) lang).
  rewrite <- Hm in Hl.
  case_bool_decide; [|destruct (NameComponent _ecm _entity)]; by intros [= <-].
Qed.

(** What a second call of [Configure] leaves, if it ends. *)
Lemma Configure_twice_result
    (fuel1 fuel2 : nat) (_entity : Entity) (sdf : Element) (_ecm : ECM)
    (d : ShaderParamPrivate) (o1 o2 : Outcome) :
  ShaderParam_Configure fuel1 _entity sdf _ecm d = Some o1 →
  ShaderParam_Configure fuel2 _entity sdf _ecm (data o1) = Some o2 →
  ending o1 = Returned →
  let queued := Configure_param <$> filter (λ p, param_ok p = true) (GetElement "param" sdf) in
  ending o2 = Returned
  ∧ shaderParams (data o2) = shaderParams d ++ queued ++ queued
  ∧ shaders (data o2) = shaders (data o1)
  ∧ modelPath (data o2) = modelPath (data o1)
  ∧ connection (data o2) = connection (data o1)
  ∧ visualName (data o2) = visualName (data o1).
Proof.
  intros H1 H2 Hret queued.
  destruct (ShaderParam_Configure_queues_complete_params _ _ _ _ _ _ H1) as [Hq1 _].
  destruct (ShaderParam_Configure_queues_complete_params _ _ _ _ _ _ H2) as [Hq2 _].
  rewrite Hq1, <- app_assoc in Hq2. fold queued in Hq2.
  revert H1 H2. rewrite !ShaderParam_Configure_unfold. cbv zeta.
  destruct (if bool_decide (modelPath d = "") then _ else _) as [path|] eqn:Hpath.
  2:{ intros [= <-]. done. }
  assert (Hpath2 : (if bool_decide (path = "")
                    then SourceFilePath _ecm (topLevelModel _entity _ecm)
                    else Some path) = Some path).
  { destruct (decide (path = "")) as [->|Hp]; [|by rewrite bool_decide_false].
    rewrite bool_decide_true by done.
    destruct (decide (modelPath d = "")) as [Hd|Hd].
    - by rewrite bool_decide_true in Hpath.
    - rewrite bool_decide_false in Hpath by done. by injection Hpath. }
  destruct (HasElement "shader" sdf) eqn:Hsh; cbn [negb].
  2:{ intros [= <-]. simpl. rewrite Hpath2. by intros [= <-]. }
  destruct (Configure_shaders fuel1 _ _ _ _) as [[m err']|] eqn:Hloop; [|done].
  assert (Hm : m = foldl (λ m e, <[shader_api e := Configure_shader path e]> m)
                     (shaders d) (GetElement "shader" sdf)).
  { destruct (decide (Forall (λ e, shader_ok e = true) (GetElement "shader" sdf))) as [Hok|Hbad].
    - destruct (decide (length (GetElement "shader" sdf) < fuel1)%nat) as [Hf|Hf].
      + rewrite Configure_shaders_run in Hloop by done. by injection Hloop as <- _.
      + exfalso. by apply (Configure_shaders_short _ _ _ _ _ _ Hok Hf Hloop).
    - by rewrite Configure_shaders_None in Hloop. }
  assert (Hidem : ∀ m2 err2 err2',
            Configure_shaders fuel2 path (GetElement "shader" sdf) m err2 = Some (m2, err2') →
            m2 = m).
  { intros m2 err2 err2' Hloop2.
    destruct (decide (Forall (λ e, shader_ok e = true) (GetElement "shader" sdf))) as [Hok|Hbad].
    2:{ by rewrite Configure_shaders_None in Hloop2. }
    destruct (decide (length (GetElement "shader" sdf) < fuel2)%nat) as [Hf|Hf].
    2:{ exfalso. by apply (Configure_shaders_short _ _ _ _ _ _ Hok Hf Hloop2). }
    rewrite Configure_shaders_run in Hloop2 by done. injection Hloop2 as <- _.
    apply map_eq. intros lang. rewrite shaders_foldl_lookup.
    destruct (last _) as [s|] eqn:Hlast; [|done].
    by rewrite Hm, shaders_foldl_lookup, Hlast. }
  clear Hpath. destruct (decide (m = ∅)) as [Hempty|Hempty].
  - rewrite bool_decide_true by done.
    intros [= <-]. simpl. rewrite Hpath2. simpl.
    destruct (Configure_shaders fuel2 _ _ _ _) as [[m2 err2']|] eqn:Hloop2; [|done].
    apply Hidem in Hloop2 as ->. rewrite bool_decide_true by done.
    by intros [= <-].
  - rewrite bool_decide_false by done. destruct (NameComponent _ecm _entity) as [name|] eqn:Hname.
    2:{ intros [= <-]. done. }
    intros [= <-]. simpl. rewrite Hpath2. simpl.
    destruct (Configure_shaders fuel2 _ _ _ _) as [[m2 err2']|] eqn:Hloop2; [|done].
    apply Hidem in Hloop2 as ->. rewrite bool_decide_false by done.
    by intros [= <-].
Qed.

(** A second call of [Configure] ends when the first has returned. *)
Lemma Configure_twice_ends
    (fuel1 fuel2 : nat) (_entity : Entity) (sdf : Element) (_ecm : ECM)
    (d : ShaderParamPrivate) (o1 : Outcome) :
  ShaderParam_Configure fuel1 _entity sdf _ecm d = Some o1 →
  ending o1 = Returned →
  (fuel1 ≤ fuel2)%nat →
  is_Some (ShaderParam_Configure fuel2 _entity sdf _ecm (data o1)).
Proof.
  intros H1 Hret Hle. revert H1. rewrite !ShaderParam_Configure_unfold. cbv zeta.
  destruct (if bool_decide (modelPath d = "") then _ else _) as [path|] eqn:Hpath.
  2:{ intros [= <-]. done. }
  assert (Hpath2 : (if bool_decide (path = "")
                    then SourceFilePath _ecm (topLevelModel _entity _ecm)
                    else Some path) = Some path).
  { destruct (decide (path = "")) as [->|Hp]; [|by rewrite bool_decide_false].
    rewrite bool_decide_true by done.
    destruct (decide (modelPath d = "")) as [Hd|Hd].
    - by rewrite bool_decide_true in Hpath.
    - rewrite bool_decide_false in Hpath by done. by injection Hpath. }
  destruct (HasElement "shader" sdf) eqn:Hsh; cbn [negb].
  2:{ intros [= <-]. simpl. rewrite Hpath2. by eexists. }
  destruct (Configure_shaders fuel1 _ _ _ _) as [[m err']|] eqn:Hloop; [|done].
  assert (Hrun : Forall (λ e, shader_ok e = true) (GetElement "shader" sdf)
                 ∧ (length (GetElement "shader" sdf) < fuel2)%nat).
  { destruct (decide (Forall (λ e, shader_ok e = true) (GetElement "shader" sdf))) as [Hok|Hbad].
    - split; [done|].
      destruct (decide (length (GetElement "shader" sdf) < fuel1)%nat) as [Hf|Hf]; [lia|].
      exfalso. by apply (Configure_shaders_short _ _ _ _ _ _ Hok Hf Hloop).
    - by rewrite Configure_shaders_None in Hloop. }
  destruct Hrun as [Hok Hlen].
  assert (Hend : ∀ d1,
            modelPath d1 = path →
            is_Some
              (let params := shaderParams d1
                             ++ (Configure_param <$>
                                   filter (λ p, param_ok p = true) (GetElement "param" sdf)) in
               let err := const msg_param <$>
                            filter (λ p, param_ok p = false) (GetElement "param" sdf) in
               match (if bool_decide (modelPath d1 = "")
                      then SourceFilePath _ecm (topLevelModel _entity _ecm)
                      else Some (modelPath d1)) with
               | None => Some {| ending := ThrewBadOptionalAccess;
                                 data := set_shaderParams params d1; ignerr := err |}
               | Some path =>
                   if negb true
                   then Some {| ending := Returned;
                                data := set_modelPath path (set_shaderParams params d1);
                                ignerr := err ++ [msg_missing_shader] |}
                   else
                     match Configure_shaders fuel2 path (GetElement "shader" sdf)
                             (shaders d1) err with
                     | None => None
                     | Some (shaders_, err') =>
                         let d3 := set_shaders shaders_
                                     (set_modelPath path (set_shaderParams params d1)) in
                         if bool_decide (shaders_ = ∅)
                         then Some {| ending := Returned; data := d3;
                                      ignerr := err' ++ [msg_no_valid_shaders] |}
                         else
                           match NameComponent _ecm _entity with
                           | None => Some {| ending := NullDereference;
                                             data := set_sp_entity _entity d3;
                                             ignerr := err' |}
                           | Some name =>
                               Some {| ending := Returned;
                                       data := set_connection true
                                                 (set_visualName name
                                                    (set_sp_entity _entity d3));
                                       ignerr := err' |}
                           end
                     end
               end)).
  { intros d1 Hd1. cbv zeta. rewrite Hd1, Hpath2. cbn [negb].
    rewrite Configure_shaders_run by done.
    destruct (bool_decide (foldl _ _ _ = ∅)); [by eexists|].
    destruct (NameComponent _ecm _entity); by eexists. }
  destruct (bool_decide (m = ∅)).
  - intros [= <-]. by apply Hend.
  - destruct (NameComponent _ecm _entity) as [name|] eqn:Hname.
    + intros [= <-]. by apply Hend.
    + intros [= <-]. done.
Qed.

(** X5. Configuring twice.  When [Configure] has returned and is called
    again with the same plugin element, entity and manager, and at least
    as many iterations allowed, the second call ends, it returns too, it
    leaves the same shader map, model path, connection and visual name,
    and the shader params of the plugin are queued a second time behind
    the first. *)
Theorem ShaderParam_Configure_twice
    (fuel1 fuel2 : nat) (_entity : Entity) (sdf : Element) (_ecm : ECM)
    (d : ShaderParamPrivate) (o1 : Outcome) :
  ShaderParam_Configure fuel1 _entity sdf _ecm d = Some o1 →
  ending o1 = Returned →
  (fuel1 ≤ fuel2)%nat →
  let queued := Configure_param <$> filter (λ p, param_ok p = true) (GetElement "param" sdf) in
  ∃ o2, ShaderParam_Configure fuel2 _entity sdf _ecm (data o1) = Some o2
    ∧ ending o2 = Returned
    ∧ shaderParams (data o2) = shaderParams d ++ queued ++ queued
    ∧ shaders (data o2) = shaders (data o1)
    ∧ modelPath (data o2) = modelPath (data o1)
    ∧ connection (data o2) = connection (data o1)
    ∧ visualName (data o2) = visualName (data o1).
Proof.
  intros H1 Hret Hle queued.
  destruct (Configure_twice_ends _ _ _ _ _ _ _ H1 Hret Hle) as [o2 H2].
  exists o2. split; [done|].
  apply (Configure_twice_result _ _ _ _ _ _ _ _ H1 H2 Hret).
Qed.
End shader_param_configure.

Lemma ShaderParam_Configure_ends_iff_shaders_complete_example :
  is_Some (ShaderParam_Configure (env := example_env) 2 1 example_sdf () ShaderParamPrivate_new)
  ∧ ShaderParam_Configure (env := example_env) 1000 1 example_sdf_bad_shader ()
      ShaderParamPrivate_new = None.
Proof.
  split.
  - apply (ShaderParam_Configure_ends_iff_shaders_complete (env := example_env)
             0 1 example_sdf () ShaderParamPrivate_new).
    + right. by eexists.
    + compute_done.
  - apply (ShaderParam_Configure_ends_iff_shaders_complete (env := example_env)
             1000 1 example_sdf_bad_shader () ShaderParamPrivate_new).
    + right. by eexists.
    + compute_done.
Defined.

Lemma ShaderParam_Configure_never_without_shaders_example :
  ∃ o, ShaderParam_Configure (env := example_env) 2 1 example_sdf () ShaderParamPrivate_new
       = Some o
    ∧ (msg_no_valid_shaders ∉ ignerr o)
    ∧ (HasElement "shader" example_sdf = true → ending o = Returned →
       shaders (data o) ≠ ∅
       ∧ connection (data o) = true
       ∧ sp_entity (data o) = 1
       ∧ NameComponent (ShaderParamEnv := example_env) () 1 = Some (visualName (data o))).
Proof.
  eexists. split; [reflexivity|].
  apply (ShaderParam_Configure_never_without_shaders (env := example_env)
           2 1 example_sdf () ShaderParamPrivate_new).
  reflexivity.
Defined.

Lemma ShaderParam_Configure_queues_complete_params_example :
  ∃ o, ShaderParam_Configure (env := example_env) 2 1 example_sdf () ShaderParamPrivate_new
       = Some o
    ∧ shaderParams (data o)
      = [] ++ (Configure_param <$>
                 filter (λ p, param_ok p = true) (GetElement "param" example_sdf))
    ∧ length (filter (λ m, m = msg_param) (ignerr o))
      = length (filter (λ p, param_ok p = false) (GetElement "param" example_sdf))
    ∧ timeParams (data o) = [].
Proof.
  eexists. split; [reflexivity|].
  apply (ShaderParam_Configure_queues_complete_params (env := example_env)
           2 1 example_sdf () ShaderParamPrivate_new).
  reflexivity.
Defined.

Lemma ShaderParam_Configure_last_shader_wins_example :
  ∃ o, ShaderParam_Configure (env := example_env) 2 1 example_sdf () ShaderParamPrivate_new
       = Some o
    ∧ shaders (data o) !! "glsl"
      = match last (filter (λ s, shader_api s = "glsl") (GetElement "shader" example_sdf)) with
        | Some s => Some (Configure_shader (env := example_env) (modelPath (data o)) s)
        | None => None
        end.
Proof.
  eexists. split; [reflexivity|].
  apply (ShaderParam_Configure_last_shader_wins (env := example_env)
           2 1 example_sdf () ShaderParamPrivate_new).
  - reflexivity.
  - discriminate.
  - reflexivity.
Defined.

Lemma ShaderParam_Configure_twice_example :
  ∃ o1 o2,
    ShaderParam_Configure (env := example_env) 2 1 example_sdf () ShaderParamPrivate_new
    = Some o1
    ∧ ShaderParam_Configure (env := example_env) 2 1 example_sdf () (data o1) = Some o2
    ∧ ending o2 = Returned
    ∧ length (shaderParams (data o1)) = 1%nat
    ∧ length (shaderParams (data o2)) = 2%nat
    ∧ shaders (data o2) = shaders (data o1).
Proof.
  eexists _. 
  destruct (ShaderParam_Configure_twice (env := example_env) 2 2 1 example_sdf ()
              ShaderParamPrivate_new _ eq_refl eq_refl (le_n 2))
    as (o2 & H2 & He & Hq & Hs & _).
  exists o2. split; [reflexivity|]. split; [exact H2|].
  split_and!; [exact He|reflexivity|by rewrite Hq|exact Hs].
Defined.

(** * The search of [OnUpdate] *)

Section search.
Implicit Types (n : Node) (q : list (nat * Node)) (entity : Entity).

Lemma Node_ind_children (P : Node → Prop) :
  (∀ n, Forall P (node_children n) → P n) → ∀ n, P n.
Proof.
  intros HP. fix IH 1. intros [id ud v cs]. apply HP. simpl.
  induction cs as [|c cs IHcs]; constructor; [apply IH | exact IHcs].
Qed.

Lemma node_descendants_unfold depth n :
  node_descendants depth n = (depth, n) :: descendants (S depth) (node_children n).
Proof. by destruct n. Qed.

Lemma descendants_cons depth n nodes :
  descendants depth (n :: nodes)
  = (depth, n) :: descendants (S depth) (node_children n) ++ descendants depth nodes.
Proof. unfold descendants at 1. simpl. by rewrite node_descendants_unfold. Qed.

Lemma descendants_app depth l1 l2 :
  descendants depth (l1 ++ l2) = descendants depth l1 ++ descendants depth l2.
Proof. unfold descendants. apply flat_map_app. Qed.

(** The descendants of a node at another depth are the same nodes, with
    the depths shifted. *)
Lemma node_descendants_shift n :
  ∀ d k, node_descendants (k + d) n = prod_map (Nat.add k) (λ c, c) <$> node_descendants d n.
Proof.
  induction n as [n IH] using Node_ind_children. intros d k.
  rewrite !node_descendants_unfold. rewrite fmap_cons. simpl. f_equal.
  unfold descendants. induction IH as [|c cs Hc _ IHcs]; [done|].
  simpl. rewrite fmap_app, <- IHcs. f_equal.
  rewrite <- Hc. f_equal. lia.
Qed.

Lemma descendants_shift nodes d k :
  descendants (k + d) nodes = prod_map (Nat.add k) (λ c, c) <$> descendants d nodes.
Proof.
  unfold descendants. induction nodes as [|n nodes IH]; [done|].
  simpl. by rewrite fmap_app, <- IH, node_descendants_shift.
Qed.

Lemma descendants_length d d' nodes :
  length (descendants d nodes) = length (descendants d' nodes).
Proof.
  rewrite <- (Nat.add_0_r d), <- (Nat.add_0_r d'), !descendants_shift.
  by rewrite !length_fmap.
Qed.

Lemma descendants_depth d nodes d' n' :
  (d', n') ∈ descendants d nodes → (d ≤ d')%nat.
Proof.
  rewrite <- (Nat.add_0_r d), descendants_shift.
  intros ([d0 n0] & [= -> ->] & _)%list_elem_of_fmap. lia.
Qed.

Lemma node_count_cons n rest :
  node_count (n :: rest) = S (node_count (rest ++ node_children n)).
Proof.
  unfold node_count. rewrite descendants_cons, descendants_app. simpl.
  rewrite !length_app, (descendants_length 1 0). lia.
Qed.

Lemma queue_descendants_fmap d nodes :
  queue_descendants ((λ c, (d, c)) <$> nodes) = descendants d nodes.
Proof.
  unfold queue_descendants, descendants.
  induction nodes as [|n nodes IH]; [done|]. simpl. f_equal. exact IH.
Qed.

Lemma queue_descendants_app q1 q2 :
  queue_descendants (q1 ++ q2) = queue_descendants q1 ++ queue_descendants q2.
Proof. apply flat_map_app. Qed.

(** The loop without depths is the loop with depths, forgetting them. *)
Lemma OnUpdate_search_with_depth fuel q entity :
  OnUpdate_search fuel q.*2 entity = (λ r : option (nat * Node), snd <$> r) <$> search_with_depth fuel q entity.
Proof.
  revert q. induction fuel as [|fuel IH]; intros q; [done|].
  destruct q as [|[d n] rest]; [done|]. simpl.
  destruct (is_entity n entity); [done|].
  rewrite <- IH. f_equal. rewrite fmap_app. f_equal.
  rewrite <- list_fmap_compose. by rewrite list_fmap_id.
Qed.

(** Enough fuel: one iteration per node, and one for the last test. *)
Lemma search_with_depth_ends fuel q entity :
  (length (queue_descendants q) < fuel)%nat →
  is_Some (search_with_depth fuel q entity).
Proof.
  revert q. induction fuel as [|fuel IH]; intros q Hf; [lia|].
  destruct q as [|[d n] rest]; simpl; [by eexists|].
  destruct (is_entity n entity); [by eexists|].
  apply IH. rewrite queue_descendants_app, queue_descendants_fmap, length_app.
  unfold queue_descendants in Hf. simpl in Hf.
  rewrite node_descendants_unfold in Hf. simpl in Hf. rewrite length_app in Hf.
  fold (queue_descendants rest) in Hf. lia.
Qed.

Lemma two_levels_head d n rest d' n' :
  two_levels ((d, n) :: rest) → (d', n') ∈ queue_descendants ((d, n) :: rest) →
  (d ≤ d')%nat.
Proof.
  intros (d0 & a & b & Hq) Hin.
  assert (Hroot : ∀ d1 n1, (d1, n1) ∈ (d, n) :: rest → (d ≤ d1)%nat).
  { intros d1 n1. rewrite Hq. destruct a as [|a0 a]; simpl in *.
    - destruct b as [|b0 b]; simplify_eq/=.
      intros [[= -> ->]|(? & [= -> ->] & _)%list_elem_of_fmap]%elem_of_cons; lia.
    - simplify_eq/=.
      intros [[= -> ->]|[(? & [= -> ->] & _)%list_elem_of_fmap
                        |(? & [= -> ->] & _)%list_elem_of_fmap]%elem_of_app]%elem_of_cons;
        lia. }
  unfold queue_descendants in Hin. apply list_elem_of_In, in_flat_map in Hin
    as ([d1 n1] & Hin1%list_elem_of_In & Hin2%list_elem_of_In).
  apply Hroot in Hin1. simpl in Hin2.
  assert (d1 ≤ d')%nat; [|lia].
  apply (descendants_depth d1 [n1] d' n'). unfold descendants. simpl.
  by rewrite app_nil_r.
Qed.

Lemma two_levels_step d n rest :
  two_levels ((d, n) :: rest) →
  two_levels (rest ++ ((λ c, (S d, c)) <$> node_children n)).
Proof.
  intros (d0 & a & b & Hq). destruct a as [|a0 a]; simpl in *.
  - destruct b as [|b0 b]; simplify_eq/=.
    by exists (S d0), b, (node_children b0).
  - simplify_eq/=. exists d0, a, (b ++ node_children a0).
    by rewrite fmap_app, app_assoc.
Qed.

(** What the loop returns. *)
Lemma search_with_depth_spec fuel q entity r :
  two_levels q →
  search_with_depth fuel q entity = Some r →
  match r with
  | Some (d, n) =>
      (d, n) ∈ queue_descendants q ∧ is_entity n entity = true
      ∧ ∀ d' n', (d', n') ∈ queue_descendants q → is_entity n' entity = true → (d ≤ d')%nat
  | None => ∀ d' n', (d', n') ∈ queue_descendants q → is_entity n' entity = false
  end.
Proof.
  revert q. induction fuel as [|fuel IH]; intros q Hq; [done|].
  destruct q as [|[d n] rest]; cbn [search_with_depth].
  - intros [= <-]. simpl. by intros d' n' ?%elem_of_nil.
  - assert (Hd : queue_descendants ((d, n) :: rest)
                 = (d, n) :: descendants (S d) (node_children n) ++ queue_descendants rest).
    { unfold queue_descendants. simpl. by rewrite node_descendants_unfold. }
    destruct (is_entity n entity) eqn:Hn.
    + intros [= <-]. split_and!; [rewrite Hd; left|done|].
      intros d' n' Hin _. by apply (two_levels_head d n rest d' n').
    + intros Hr. apply IH in Hr; [|by apply two_levels_step].
      assert (Hperm : ∀ x, x ∈ queue_descendants ((d, n) :: rest)
                           ↔ x = (d, n) ∨ x ∈ queue_descendants
                                  (rest ++ ((λ c, (S d, c)) <$> node_children n))).
      { intros x. rewrite Hd, queue_descendants_app, queue_descendants_fmap.
        rewrite elem_of_cons, !elem_of_app. tauto. }
      destruct r as [[d0 n0]|].
      * destruct Hr as (Hin & He & Hmin). split_and!; [apply Hperm; by right|done|].
        intros d' n' [[= -> ->]|Hin']%Hperm He'; [congruence|]. by apply (Hmin d' n').
      * intros d' n' [[= -> ->]|Hin']%Hperm; [done|]. by apply (Hr d' n').
Qed.

Lemma search_from_depth_0 (nodes : list Node) :
  ((λ c, (0%nat, c)) <$> nodes).*2 = nodes ∧ two_levels ((λ c, (0%nat, c)) <$> nodes).
Proof.
  split.
  - rewrite <- list_fmap_compose. apply list_fmap_id.
  - exists 0%nat, nodes, []. by rewrite app_nil_r.
Qed.
End search.

(** ** Properties of the search of [OnUpdate] *)

(** X6. The search ends and is right.  With one iteration for each node
    below the nodes it starts from, and one more, the loop of [OnUpdate]
    ends; it ends with a node exactly when some node below the start holds
    the entity's number as [int] user data, and the node it ends with is
    such a node. *)
Theorem OnUpdate_search_finds_entity_node
    (fuel : nat) (nodes : list Node) (entity : Entity) :
  (node_count nodes < fuel)%nat →
  ∃ r, OnUpdate_search fuel nodes entity = Some r
    ∧ match r with
      | Some n => n ∈ (descendants 0 nodes).*2 ∧ is_entity n entity = true
      | None => ∀ n', n' ∈ (descendants 0 nodes).*2 → is_entity n' entity = false
      end.
Proof.
  intros Hfuel. destruct (search_from_depth_0 nodes) as [Hq H2].
  destruct (search_with_depth_ends fuel ((λ c, (0%nat, c)) <$> nodes) entity) as [r Hr].
  { by rewrite queue_descendants_fmap. }
  pose proof (search_with_depth_spec _ _ _ _ H2 Hr) as Hspec.
  rewrite queue_descendants_fmap in Hspec.
  exists (snd <$> r). split.
  - by rewrite <- Hq at 1; rewrite OnUpdate_search_with_depth, Hr.
  - destruct r as [[d n]|]; simpl.
    + destruct Hspec as (Hin & He & _). split; [|done].
      apply list_elem_of_fmap. by exists (d, n).
    + intros n' ([d' n0] & -> & Hin)%list_elem_of_fmap. by apply (Hspec d').
Qed.

Lemma OnUpdate_search_finds_entity_node_example :
  ∃ r, OnUpdate_search 5 [example_tree] 8 = Some r
    ∧ match r with
      | Some n => n ∈ (descendants 0 [example_tree]).*2 ∧ is_entity n 8 = true
      | None => ∀ n', n' ∈ (descendants 0 [example_tree]).*2 → is_entity n' 8 = false
      end.
Proof.
  apply (OnUpdate_search_finds_entity_node 5 [example_tree] 8). vm_compute. lia.
Defined.

(** X7. The search is breadth first.  A node the loop of [OnUpdate] ends
    with is a shallowest one among the nodes that hold the entity's
    number: no node with that user data lies at a smaller depth below the
    start. *)
Theorem OnUpdate_search_finds_shallowest
    (fuel : nat) (nodes : list Node) (entity : Entity) (n : Node) :
  OnUpdate_search fuel nodes entity = Some (Some n) →
  ∃ d, (d, n) ∈ descendants 0 nodes
    ∧ ∀ d' n', (d', n') ∈ descendants 0 nodes → is_entity n' entity = true → (d ≤ d')%nat.
Proof.
  destruct (search_from_depth_0 nodes) as [Hq H2].
  rewrite <- Hq at 1. rewrite OnUpdate_search_with_depth.
  destruct (search_with_depth _ _ _) as [r|] eqn:Hr; [|done].
  pose proof (search_with_depth_spec _ _ _ _ H2 Hr) as Hspec.
  rewrite queue_descendants_fmap in Hspec.
  destruct r as [[d n0]|]; [|done]. intros [= <-].
  destruct Hspec as (Hin & _ & Hmin). by exists d.
Qed.

Lemma OnUpdate_search_finds_shallowest_example :
  ∃ n, OnUpdate_search 5 [example_tree] 8 = Some (Some n)
    ∧ node_id n = 3
    ∧ ∃ d, (d, n) ∈ descendants 0 [example_tree]
        ∧ ∀ d' n', (d', n') ∈ descendants 0 [example_tree] →
                   is_entity n' 8 = true → (d ≤ d')%nat.
Proof.
  eexists. split; [reflexivity|]. split; [reflexivity|].
  apply (OnUpdate_search_finds_shallowest 5 [example_tree] 8). reflexivity.
Defined.

(** X8. Entities are compared as 32-bit numbers.  The search casts the
    64-bit entity to [int], so two entities that differ by a multiple of
    2^32 give the same search, whatever the scene. *)
Theorem OnUpdate_search_entity_modulo
    (fuel : nat) (nodes : list Node) (entity : Entity) (k : N) :
  OnUpdate_search fuel nodes (entity + k * 2 ^ 32) = OnUpdate_search fuel nodes entity.
Proof.
  assert (Hint : to_int (entity + k * 2 ^ 32) = to_int entity).
  { unfold to_int. rewrite N2Z.inj_add, N2Z.inj_mul.
    change (Z.of_N (2 ^ 32)) with (2 ^ 32)%Z. by rewrite Z_mod_plus_full. }
  assert (He : ∀ n, is_entity n (entity + k * 2 ^ 32) = is_entity n entity).
  { intros n. unfold is_entity. by rewrite Hint. }
  revert nodes. induction fuel as [|fuel IH]; intros nodes; [done|].
  destruct nodes as [|n rest]; [done|]. simpl. rewrite He.
  destruct (is_entity n entity); [done|]. apply IH.
Qed.

(** * The shader params of [OnUpdate] *)

Section shader_params.
Context {env : ShaderParamEnv} {parse : ParseEnv}.
Implicit Types (spv : ShaderParamValue) (l tp : list ShaderParamValue).

Lemma params_of_unknown shader :
  shader ≠ "fragment" → shader ≠ "vertex" → params_of shader = NullParams.
Proof. intros Hf Hv. unfold params_of. by rewrite !bool_decide_false. Qed.

Lemma set_param_null name op p name' op' :
  set_param NullParams name op ≠ ParamSet p name' op'.
Proof. done. Qed.

Lemma OnUpdate_param_TimeParam path spv :
  OnUpdate_param path spv = TimeParam ↔ spv_value spv = "TIME".
Proof.
  unfold OnUpdate_param. split; [|intros Ht; by rewrite bool_decide_true].
  destruct (decide (spv_value spv = "TIME")) as [|Hne]; [done|].
  rewrite (bool_decide_false _ Hne). unfold set_param.
  destruct (params_of (spv_shader spv)); repeat case_match; done.
Qed.

(** The first loop: what it leaves in [timeParams]. *)
Lemma OnUpdate_params_time path l tp done_ e tp' done' :
  OnUpdate_params path l tp done_ = (e, tp', done') →
  e = ParamsDone →
  tp' = tp ++ filter (λ spv, spv_value spv = "TIME") l.
Proof.
  revert tp done_. induction l as [|spv l IH]; intros tp done_; simpl.
  - intros [= <- <- <-] _. by rewrite app_nil_r.
  - destruct (OnUpdate_param path spv) eqn:Hstep; intros Hr He.
    + rewrite (IH _ _ Hr He), <- app_assoc. f_equal.
      rewrite filter_cons_True; [done|]. by apply (OnUpdate_param_TimeParam path).
    + rewrite (IH _ _ Hr He). rewrite filter_cons_False; [done|].
      intros Ht%(OnUpdate_param_TimeParam path). congruence.
    + rewrite (IH _ _ Hr He). rewrite filter_cons_False; [done|].
      intros Ht%(OnUpdate_param_TimeParam path). congruence.
    + by simplify_eq.
    + by simplify_eq.
Qed.

(** The second loop: it sets one float for each time param, or stops at
    the first whose shader is unknown. *)
Lemma OnUpdate_timeParams_done simTime l done_ :
  Forall (λ spv, params_of (spv_shader spv) ≠ NullParams) l →
  OnUpdate_timeParams simTime l done_
  = (ParamsDone,
     done_ ++ ((λ spv, (params_of (spv_shader spv), spv_name spv,
                       AssignFloat (seconds_of_nanoseconds simTime))) <$> l)).
Proof.
  intros Hl. revert done_. induction Hl as [|spv l Hspv _ IH]; intros done_; simpl.
  - by rewrite app_nil_r.
  - destruct (params_of (spv_shader spv)) eqn:Hp; [| |done];
      simpl; by rewrite IH, <- app_assoc.
Qed.

Lemma OnUpdate_timeParams_inv simTime l done_ done' :
  OnUpdate_timeParams simTime l done_ = (ParamsDone, done') →
  Forall (λ spv, params_of (spv_shader spv) ≠ NullParams) l.
Proof.
  revert done_. induction l as [|spv l IH]; intros done_; simpl; [done|].
  destruct (params_of (spv_shader spv)) eqn:Hp; simpl; [| |done].
  - intros Hr. constructor; [by rewrite Hp|]. by eapply IH.
  - intros Hr. constructor; [by rewrite Hp|]. by eapply IH.
Qed.
End shader_params.

(** ** Properties of the shader params of [OnUpdate] *)

Section shader_params_properties.
Context {env : ShaderParamEnv} {parse : ParseEnv}.

(** X9. An array type with a single value sets nothing.  For a shader
    param whose value is not empty and not [TIME], whose value splits
    into exactly one token, and whose type is none of [texture],
    [texture_cube], [int], [float] and the empty string (so also
    [int_array] and [float_array]): the iteration sets no param, throws
    nothing and dereferences nothing, whatever the shader. *)
Theorem OnUpdate_param_single_value_of_array_type_is_dropped
    (modelPath_ : string) (spv : ShaderParamValue) (str : string) :
  spv_value spv ≠ "TIME" →
  spv_value spv ≠ "" →
  split (spv_value spv) " " = [str] →
  spv_type spv ∉ ["texture"; "texture_cube"; "int"; "float"; ""] →
  OnUpdate_param modelPath_ spv = NothingSet.
Proof.
  intros Ht Hv Hs Hty. unfold OnUpdate_param.
  rewrite (bool_decide_false _ Ht), (bool_decide_false _ Hv).
  assert (Hne : ∀ t, t ∈ ["texture"; "texture_cube"; "int"; "float"; ""] →
                     bool_decide (spv_type spv = t) = false).
  { intros t Hin. apply bool_decide_eq_false. by intros <-. }
  rewrite (Hne "texture"), (Hne "texture_cube"), Hs, (Hne ""), (Hne "int"), (Hne "float")
    by set_solver.
  done.
Qed.

(** X10. A param of an unknown shader is never set.  For a shader param
    whose [<shader>] is neither [fragment] nor [vertex], no iteration of
    the loop sets a param: the iteration either moves it to the time
    params, sets nothing, throws, or dereferences the null [params]; and
    with an empty value it is the null dereference. *)
Theorem OnUpdate_param_unknown_shader_is_never_set
    (modelPath_ : string) (spv : ShaderParamValue) :
  spv_shader spv ≠ "fragment" →
  spv_shader spv ≠ "vertex" →
  (∀ p name op, OnUpdate_param modelPath_ spv ≠ ParamSet p name op)
  ∧ (spv_value spv = "" → OnUpdate_param modelPath_ spv = ParamNullDereference).
Proof.
  intros Hf Hv. unfold OnUpdate_param. rewrite (params_of_unknown _ Hf Hv). split.
  - intros p name op. unfold set_param. repeat case_match; done.
  - intros Hval. rewrite Hval. done.
Qed.

(** X11. The params of the plugin are set once.  When the end of
    [OnUpdate] runs through without a throw or a null dereference, the
    list of shader params is empty afterwards and the time params are the
    ones there were followed by the [TIME] params of the list, in order;
    and running it again from there changes nothing in the private data
    and sets exactly one float per time param, nothing else. *)
Theorem OnUpdate_set_params_once
    (d d' : ShaderParamPrivate) (ops : list (ParamsPtr * string * ParamOp)) :
  OnUpdate_set_params d = (ParamsDone, d', ops) →
  shaderParams d' = []
  ∧ timeParams d' = timeParams d ++ filter (λ spv, spv_value spv = "TIME") (shaderParams d)
  ∧ OnUpdate_set_params d'
    = (ParamsDone, d',
       (λ spv, (params_of (spv_shader spv), spv_name spv,
                AssignFloat (seconds_of_nanoseconds (currentSimTime d')))) <$> timeParams d').
Proof.
  unfold OnUpdate_set_params.
  destruct (OnUpdate_params _ (shaderParams d) _ _) as [[e tp] done_] eqn:Hloop.
  destruct e; [|by intros [=]..].
  apply OnUpdate_params_time in Hloop as ->; [|done].
  destruct (OnUpdate_timeParams _ _ _) as [e2 done2] eqn:Htime. simpl in Htime.
  intros [= -> <- <-]. simpl. split_and!; [done..|].
  apply OnUpdate_timeParams_inv in Htime as Hok.
  by rewrite (OnUpdate_timeParams_done _ _ [] Hok).
Qed.
(** X23. The time params get the time of the last [PreUpdate].  When
    [PreUpdate] has stored a simulation time and the end of [OnUpdate]
    then runs through, the private data still holds that time, and what
    was set on the material is what the loop over the shader params set,
    followed by one float per time param, each the stored time in
    seconds. *)
Theorem ShaderParam_PreUpdate_time_reaches_time_params
    (simTime : Z) (d d' : ShaderParamPrivate) (ops : list (ParamsPtr * string * ParamOp)) :
  OnUpdate_set_params (ShaderParam_PreUpdate simTime d) = (ParamsDone, d', ops) →
  currentSimTime d' = simTime
  ∧ ∃ first,
      OnUpdate_params (modelPath d) (shaderParams d) (timeParams d) []
      = (ParamsDone, timeParams d', first)
      ∧ ops = first
              ++ ((λ spv, (params_of (spv_shader spv), spv_name spv,
                           AssignFloat (seconds_of_nanoseconds simTime))) <$> timeParams d').
Proof.
  unfold OnUpdate_set_params, ShaderParam_PreUpdate. simpl.
  destruct (OnUpdate_params _ (shaderParams d) _ _) as [[e tp] first] eqn:Hloop.
  destruct e; [|by intros [=]..]. simpl.
  destruct (OnUpdate_timeParams _ _ _) as [e2 done2] eqn:Htime.
  intros [= -> <- <-]. simpl. split; [done|]. exists first. split; [done|].
  apply OnUpdate_timeParams_inv in Htime as Hok.
  rewrite (OnUpdate_timeParams_done _ _ _ Hok) in Htime. by injection Htime.
Qed.
End shader_params_properties.

Lemma OnUpdate_param_single_value_of_array_type_is_dropped_example :
  OnUpdate_param (env := example_env) (parse := example_parse) "/models/m"
    {| spv_shader := "fragment"; spv_type := "float_array"; spv_name := "weights";
       spv_value := "1"; spv_args := [] |}
  = NothingSet.
Proof.
  apply (OnUpdate_param_single_value_of_array_type_is_dropped
           (env := example_env) (parse := example_parse) "/models/m" _ "1").
  - discriminate.
  - discriminate.
  - reflexivity.
  - compute_done.
Defined.

Lemma OnUpdate_param_unknown_shader_is_never_set_example :
  let spv := {| spv_shader := "pixel"; spv_type := "float"; spv_name := "gain";
                spv_value := ""; spv_args := [] |} in
  (∀ p name op,
     OnUpdate_param (env := example_env) (parse := example_parse) "/models/m" spv
     ≠ ParamSet p name op)
  ∧ (spv_value spv = "" →
     OnUpdate_param (env := example_env) (parse := example_parse) "/models/m" spv
     = ParamNullDereference).
Proof.
  apply (OnUpdate_param_unknown_shader_is_never_set
           (env := example_env) (parse := example_parse) "/models/m").
  - discriminate.
  - discriminate.
Defined.

Lemma OnUpdate_set_params_once_example :
  ∃ d' ops,
    OnUpdate_set_params (env := example_env) (parse := example_parse) example_queued
    = (ParamsDone, d', ops)
    ∧ length ops = 3%nat
    ∧ shaderParams d' = []
    ∧ length (timeParams d') = 1%nat
    ∧ ∃ ops', OnUpdate_set_params (env := example_env) (parse := example_parse) d'
              = (ParamsDone, d', ops') ∧ length ops' = 1%nat.
Proof.
  eexists _, _. split; [reflexivity|]. split; [reflexivity|].
  destruct (OnUpdate_set_params_once (env := example_env) (parse := example_parse)
              example_queued _ _ eq_refl) as (Hs & Ht & Hagain).
  split; [exact Hs|]. split; [by rewrite Ht|].
  eexists. split; [exact Hagain|]. by rewrite length_fmap, Ht.
Defined.

Lemma ShaderParam_PreUpdate_time_reaches_time_params_example :
  ∃ d' ops,
    OnUpdate_set_params (env := example_env) (parse := example_parse)
      (ShaderParam_PreUpdate 2000000000 example_queued)
    = (ParamsDone, d', ops)
    ∧ currentSimTime d' = 2000000000%Z
    ∧ last ops = Some (FragmentShaderParams, "t", AssignFloat (parse := example_parse) 2%Z).
Proof.
  eexists _, _. split; [reflexivity|].
  destruct (ShaderParam_PreUpdate_time_reaches_time_params
              (env := example_env) (parse := example_parse)
              2000000000 example_queued _ _ eq_refl) as (Ht & first & Hfirst & _).
  split; [exact Ht|reflexivity].
Defined.

(** * ViewAngle *)

Section view_angle.
Implicit Types (sel dat : list Entity) (e : Entity) (d : ViewAnglePrivate).

Lemma eventFilter_select_elem dat sel e :
  e ∈ eventFilter_select dat sel ↔ e ∈ sel ∨ e ∈ dat.
Proof.
  revert sel. induction dat as [|x dat IH]; intros sel; simpl.
  - rewrite elem_of_nil. tauto.
  - case_bool_decide as Hx; rewrite IH.
    + rewrite elem_of_cons. split; [tauto|]. intros [?|[->|?]]; tauto.
    + rewrite elem_of_app, list_elem_of_singleton, elem_of_cons. tauto.
Qed.

Lemma eventFilter_select_NoDup dat sel :
  NoDup sel → NoDup (eventFilter_select dat sel).
Proof.
  revert sel. induction dat as [|x dat IH]; intros sel Hsel; simpl; [done|].
  case_bool_decide as Hx; apply IH; [done|].
  apply NoDup_app. split_and!; [done| |apply NoDup_singleton].
  intros y Hy ->%list_elem_of_singleton. done.
Qed.

Lemma eventFilter_select_prefix dat sel :
  sel `prefix_of` eventFilter_select dat sel.
Proof.
  revert sel. induction dat as [|x dat IH]; intros sel; simpl; [done|].
  case_bool_decide; [apply IH|].
  etrans; [|apply IH]. by apply prefix_app_r.
Qed.

Lemma eventFilter_select_known dat sel :
  (∀ e, e ∈ dat → e ∈ sel) → eventFilter_select dat sel = sel.
Proof.
  revert sel. induction dat as [|x dat IH]; intros sel Hall; simpl; [done|].
  rewrite bool_decide_true by (apply Hall; by left).
  apply IH. intros e He. apply Hall. by right.
Qed.

Lemma is_prefix_spec sub s : is_prefix sub s = true ↔ ∃ post, s = sub +:+ post.
Proof.
  revert s. induction sub as [|a sub IH]; intros s; simpl.
  - split; [eauto|done].
  - destruct s as [|b s]; [split; [done|by intros [? [=]]]|].
    rewrite andb_true_iff, bool_decide_eq_true, IH. split.
    + intros [-> [post ->]]. by exists post.
    + intros [post [= -> ->]]. eauto.
Qed.

Lemma contains_spec sub s :
  contains sub s = true ↔ ∃ pre post, s = pre +:+ sub +:+ post.
Proof.
  induction s as [|b s IH]; simpl.
  - rewrite orb_false_r, is_prefix_spec. split.
    + intros [post Hs]. by exists "", post.
    + intros (pre & post & Hs). destruct pre; [by exists post|done].
  - rewrite orb_true_iff, is_prefix_spec, IH. split.
    + intros [[post Hs]|(pre & post & ->)]; [by exists "", post|].
      by exists (String b pre), post.
    + intros (pre & post & Hs). destruct pre as [|a pre]; [left; by exists post|].
      right. injection Hs as -> ->. by exists pre, post.
Qed.

Lemma to_int_Entity_of_int (i : Z) :
  (- 2 ^ 31 ≤ i < 2 ^ 31)%Z → to_int (Entity_of_int i) = i.
Proof.
  intros Hi. unfold to_int, Entity_of_int.
  rewrite Z2N.id by (apply Z.mod_pos_bound; lia).
  assert (Hmod : ((i `mod` 2 ^ 64) `mod` 2 ^ 32 = i `mod` 2 ^ 32)%Z).
  { apply Z.mod_mod_divide. by exists (2 ^ 32)%Z. }
  rewrite Hmod. destruct (decide (0 ≤ i)%Z) as [Hpos|Hneg].
  - rewrite Z.mod_small by lia. by rewrite (proj2 (Z.ltb_lt _ _)) by lia.
  - assert (i `mod` 2 ^ 32 = i + 2 ^ 32)%Z as ->.
    { symmetry. apply (Z.mod_unique_pos _ _ (-1)); lia. }
    rewrite (proj2 (Z.ltb_ge _ _)) by lia. lia.
Qed.
End view_angle.

(** ** Properties of [ViewAngle] *)

(** X12. Selecting keeps the selection free of repetitions.  When the
    selected entities hold no entity twice, then after an
    [EntitiesSelected] event they still hold no entity twice; an entity is
    selected afterwards exactly if it was selected before or is in the
    event; and the entities selected before are where they were, the new
    ones behind them. *)
Theorem ViewAngle_eventFilter_select_no_duplicates
    (data_ : list Entity) (d : ViewAnglePrivate) :
  NoDup (selectedEntities d) →
  let d' := ViewAngle_eventFilter (EntitiesSelected data_) d in
  NoDup (selectedEntities d')
  ∧ (∀ e, e ∈ selectedEntities d' ↔ e ∈ selectedEntities d ∨ e ∈ data_)
  ∧ selectedEntities d `prefix_of` selectedEntities d'.
Proof.
  intros Hd d'. subst d'. simpl. split_and!.
  - by apply eventFilter_select_NoDup.
  - intros e. apply eventFilter_select_elem.
  - apply eventFilter_select_prefix.
Qed.

Lemma ViewAngle_eventFilter_select_no_duplicates_example :
  let d' := ViewAngle_eventFilter (EntitiesSelected [5; 7; 7; 4]) example_view in
  NoDup (selectedEntities d')
  ∧ (∀ e, e ∈ selectedEntities d' ↔ e ∈ selectedEntities example_view ∨ e ∈ [5; 7; 7; 4])
  ∧ selectedEntities example_view `prefix_of` selectedEntities d'.
Proof.
  apply (ViewAngle_eventFilter_select_no_duplicates [5; 7; 7; 4] example_view).
  compute_done.
Defined.

(** X13. Selecting the same entities again changes nothing: an
    [EntitiesSelected] event handled twice leaves the selected entities as
    after the first time, whatever they were. *)
Theorem ViewAngle_eventFilter_select_twice
    (data_ : list Entity) (d : ViewAnglePrivate) :
  ViewAngle_eventFilter (EntitiesSelected data_)
    (ViewAngle_eventFilter (EntitiesSelected data_) d)
  = ViewAngle_eventFilter (EntitiesSelected data_) d.
Proof.
  simpl. rewrite eventFilter_select_known; [done|].
  intros e He. apply eventFilter_select_elem. by right.
Qed.



Section view_angle_service.
Context {math : MathEnv}.

(** X14. The move-to-model service fails without a trace.  With a camera,
    the call returns; it returns true, with a true response, exactly when
    the scene has a visual of the name asked for, that visual holds an
    [int] under [gazebo-entity], and the projection type names a
    controller.  When it returns false, the private data is untouched, no
    request is made, and one error is written.  When it returns true, the
    visual's entity is pushed behind the selected entities, the two flags
    are set and one request is made to the view control service. *)
Theorem ViewAngle_OnMoveToModelService_result
    (_msg : GUICamera) (d : ViewAnglePrivate) (cam : Camera) :
  camera d = Some cam →
  let r := ViewAngle_OnMoveToModelService _msg d in
  call_end r.1 = CallReturned
  ∧ ∃ ret, r.2 = Some (ret, ret)
    ∧ (ret = true ↔
         ∃ v i c, VisualByName (msg_name _msg) (cam_scene cam) = Some v
                  ∧ vis_gazebo_entity v = Some (VariantInt i)
                  ∧ OnMoveToModelService_controller (msg_projection_type _msg) = Some c)
    ∧ (ret = false →
         call_data r.1 = d ∧ call_requests r.1 = [] ∧ length (call_errors r.1) = 1%nat)
    ∧ (ret = true →
         ∃ v i c, VisualByName (msg_name _msg) (cam_scene cam) = Some v
                  ∧ vis_gazebo_entity v = Some (VariantInt i)
                  ∧ OnMoveToModelService_controller (msg_projection_type _msg) = Some c
                  ∧ selectedEntities (call_data r.1) = selectedEntities d ++ [Entity_of_int i]
                  ∧ newMoveToModel (call_data r.1) = true
                  ∧ viewingAngle (call_data r.1) = true
                  ∧ call_requests r.1
                    = [{| req_service := viewControlService d; req_data := ReqString c |}]
                  ∧ call_errors r.1 = []).
Proof.
  intros Hcam r. subst r. unfold ViewAngle_OnMoveToModelService. rewrite Hcam.
  destruct (VisualByName _ _) as [v|] eqn:Hv.
  2:{ split; [done|]. exists false. split_and!; [done| |done..].
      split; [done|]. by intros (? & ? & ? & [=] & _). }
  destruct (vis_gazebo_entity v) as [[i|]|] eqn:Hi.
  2,3: split; [done|]; exists false; (split_and!; [done| |done..]);
       (split; [done|]); intros (? & ? & ? & [= <-] & ? & _); congruence.
  destruct (OnMoveToModelService_controller _) as [c|] eqn:Hc.
  2:{ split; [done|]. exists false. split_and!; [done| |done..].
      split; [done|]. by intros (? & ? & ? & _ & _ & [=]). }
  split; [done|]. exists true. split_and!; [done| |done|].
  - split; [|done]. intros _. by exists v, i, c.
  - intros _. by exists v, i, c.
Qed.

(** X15. After the move the selection is as before.  When the
    move-to-model service has returned true and the animation completes
    with nothing else in between, [OnComplete] returns, the selected
    entities are exactly the ones selected before the service call, the
    two flags are cleared, and a pose to move to is set. *)
Theorem ViewAngle_OnComplete_after_service
    (_msg : GUICamera) (d : ViewAnglePrivate) (r : Call) :
  ViewAngle_OnMoveToModelService _msg d = (r, Some (true, true)) →
  let c := ViewAngle_OnComplete (call_data r) in
  call_end c = CallReturned
  ∧ selectedEntities (call_data c) = selectedEntities d
  ∧ newMoveToModel (call_data c) = false
  ∧ viewingAngle (call_data c) = false
  ∧ is_Some (moveToPoseValue (call_data c)).
Proof.
  unfold ViewAngle_OnMoveToModelService.
  destruct (camera d) as [cam|] eqn:Hcam; [|done].
  destruct (VisualByName _ _) as [v|]; [|done].
  destruct (vis_gazebo_entity v) as [[i|]|]; [|done..].
  destruct (OnMoveToModelService_controller _) as [ctl|]; [|done].
  intros [= <-]. unfold ViewAngle_OnComplete. simpl.
  destruct (selectedEntities d ++ [Entity_of_int i]) as [|x l] eqn:Hl.
  { by destruct (selectedEntities d). }
  rewrite <- Hl, removelast_last, Hcam. clear Hl.
  destruct (Euler _) as [[roll pitch] yaw]. simpl. by split_and!.
Qed.

(** X16. A selection made during the move is lost.  When the
    move-to-model service has returned true and, before the animation
    completes, one entity that was not selected is selected, then
    [OnComplete] removes that entity, not the one the service pushed: the
    selected entities end as the ones before the service call followed by
    the entity of the visual moved to. *)
Theorem ViewAngle_OnComplete_pops_the_last_selected
    (_msg : GUICamera) (d : ViewAnglePrivate) (r : Call) (e : Entity) :
  ViewAngle_OnMoveToModelService _msg d = (r, Some (true, true)) →
  e ∉ selectedEntities (call_data r) →
  let c := ViewAngle_OnComplete (ViewAngle_eventFilter (EntitiesSelected [e]) (call_data r)) in
  call_end c = CallReturned
  ∧ selectedEntities (call_data c) = selectedEntities (call_data r)
  ∧ (e ∉ selectedEntities (call_data c))
  ∧ ∃ i, selectedEntities (call_data c) = selectedEntities d ++ [Entity_of_int i].
Proof.
  unfold ViewAngle_OnMoveToModelService.
  destruct (camera d) as [cam|] eqn:Hcam; [|done].
  destruct (VisualByName _ _) as [v|]; [|done].
  destruct (vis_gazebo_entity v) as [[i|]|]; [|done..].
  destruct (OnMoveToModelService_controller _) as [ctl|]; [|done].
  intros [= <-]. simpl. intros He. rewrite bool_decide_false by done.
  unfold ViewAngle_OnComplete. simpl.
  destruct ((selectedEntities d ++ [Entity_of_int i]) ++ [e]) as [|x l] eqn:Hl.
  { by destruct (selectedEntities d). }
  rewrite <- Hl, removelast_last, Hcam. clear Hl.
  destruct (Euler _) as [[roll pitch] yaw]. simpl. split_and!; try done. by exists i.
Qed.

(** X17. Deselecting during the move empties the vector that
    [OnComplete] pops.  When the move-to-model service has returned true
    and a [DeselectAllEntities] event is handled before the animation
    completes, [OnComplete] calls [pop_back] on an empty vector. *)
Theorem ViewAngle_OnComplete_after_deselect_all
    (_msg : GUICamera) (d : ViewAnglePrivate) (r : Call) :
  ViewAngle_OnMoveToModelService _msg d = (r, Some (true, true)) →
  call_end (ViewAngle_OnComplete (ViewAngle_eventFilter DeselectAllEntities (call_data r)))
  = CallUndefined.
Proof.
  unfold ViewAngle_OnMoveToModelService.
  destruct (camera d) as [cam|] eqn:Hcam; [|done].
  destruct (VisualByName _ _) as [v|]; [|done].
  destruct (vis_gazebo_entity v) as [[i|]|]; [|done..].
  destruct (OnMoveToModelService_controller _) as [ctl|]; [|done].
  by intros [= <-].
Qed.
End view_angle_service.

Lemma ViewAngle_OnMoveToModelService_result_example :
  let r := ViewAngle_OnMoveToModelService (math := example_math) example_move_to_box example_view in
  call_end r.1 = CallReturned
  ∧ r.2 = Some (true, true)
  ∧ selectedEntities (call_data r.1) = [4; 5; 9].
Proof.
  intros r.
  destruct (ViewAngle_OnMoveToModelService_result (math := example_math)
              example_move_to_box example_view _ eq_refl) as (Hend & ret & Hret & _).
  split; [exact Hend|]. split; reflexivity.
Defined.

Lemma ViewAngle_OnComplete_after_service_example :
  let r := (ViewAngle_OnMoveToModelService (math := example_math)
              example_move_to_box example_view).1 in
  let c := ViewAngle_OnComplete (math := example_math) (call_data r) in
  call_end c = CallReturned
  ∧ selectedEntities (call_data c) = [4; 5]
  ∧ newMoveToModel (call_data c) = false
  ∧ viewingAngle (call_data c) = false
  ∧ is_Some (moveToPoseValue (call_data c)).
Proof.
  apply (ViewAngle_OnComplete_after_service (math := example_math)
           example_move_to_box example_view).
  reflexivity.
Defined.

Lemma ViewAngle_OnComplete_pops_the_last_selected_example :
  let r := (ViewAngle_OnMoveToModelService (math := example_math)
              example_move_to_box example_view).1 in
  let c := ViewAngle_OnComplete (math := example_math)
             (ViewAngle_eventFilter (EntitiesSelected [6]) (call_data r)) in
  call_end c = CallReturned
  ∧ selectedEntities (call_data c) = selectedEntities (call_data r)
  ∧ (6 ∉ selectedEntities (call_data c))
  ∧ ∃ i, selectedEntities (call_data c) = [4; 5] ++ [Entity_of_int i].
Proof.
  apply (ViewAngle_OnComplete_pops_the_last_selected (math := example_math)
           example_move_to_box example_view).
  - reflexivity.
  - compute_done.
Defined.

Lemma ViewAngle_OnComplete_after_deselect_all_example :
  call_end (ViewAngle_OnComplete (math := example_math)
              (ViewAngle_eventFilter DeselectAllEntities
                 (call_data (ViewAngle_OnMoveToModelService (math := example_math)
                               example_move_to_box example_view).1)))
  = CallUndefined.
Proof.
  apply (ViewAngle_OnComplete_after_deselect_all (math := example_math)
           example_move_to_box example_view).
  reflexivity.
Defined.

(** X18. The view control index follows the camera, once.  With a camera,
    [UpdateQtViewControl] returns true exactly when the camera's
    projection type differs from the one recorded, records the camera's,
    after which [ViewControlIndex] is 0 for a perspective camera and 1
    otherwise; a second call right after returns false and changes
    nothing.  Without a camera it returns false and changes nothing. *)
Theorem ViewAngle_UpdateQtViewControl_settles (d : ViewAnglePrivate) :
  let r := ViewAngle_UpdateQtViewControl d in
  (r.1 = true ↔ ∃ cam, camera d = Some cam ∧ cam_projection cam ≠ viewControlType d)
  ∧ (∀ cam, camera d = Some cam →
       viewControlType r.2 = cam_projection cam
       ∧ ViewAngle_ViewControlIndex r.2
         = if bool_decide (cam_projection cam = CPT_PERSPECTIVE) then 0%Z else 1%Z)
  ∧ (camera d = None → r = (false, d))
  ∧ ViewAngle_UpdateQtViewControl r.2 = (false, r.2).
Proof.
  unfold ViewAngle_UpdateQtViewControl, ViewAngle_ViewControlIndex.
  destruct (camera d) as [cam|] eqn:Hcam; simpl.
  2:{ rewrite Hcam. split_and!; try done. split; [done|]. by intros (? & [=] & _). }
  destruct (decide (cam_projection cam ≠ viewControlType d)) as [Hne|Heq].
  - rewrite (bool_decide_true _ Hne). simpl. rewrite Hcam.
    rewrite (bool_decide_false (cam_projection cam ≠ cam_projection cam))
      by (intros Hx; by apply Hx).
    split_and!; try done.
    + split; [|done]. intros _. by exists cam.
    + by intros ? [= <-].
  - rewrite (bool_decide_false _ Heq). simpl. rewrite Hcam.
    rewrite (bool_decide_false _ Heq).
    apply dec_stable in Heq.
    split_and!; try done.
    + split; [done|]. intros (? & [= <-] & ?). done.
    + intros ? [= <-]. by rewrite Heq.
Qed.

(** X19. An [int] of user data survives the entity it is stored as.  For
    every 32-bit [int], the entity that the move-to-model service makes of
    it casts back to that [int]; so a node whose [gazebo-entity] user data
    is that [int] is the entity's node for the comparison the plugins make,
    also when the [int] is negative. *)
Theorem Entity_of_int_is_found_again (i : Z) (n : Node) :
  (- 2 ^ 31 ≤ i < 2 ^ 31)%Z →
  node_gazebo_entity n = Some (VariantInt i) →
  to_int (Entity_of_int i) = i ∧ is_entity n (Entity_of_int i) = true.
Proof.
  intros Hi Hn. pose proof (to_int_Entity_of_int i Hi) as Hr. split; [done|].
  unfold is_entity. rewrite Hn, Hr. by apply bool_decide_eq_true.
Qed.

Lemma Entity_of_int_is_found_again_example :
  to_int (Entity_of_int (-1)) = (-1)%Z
  ∧ is_entity {| node_id := 1; node_gazebo_entity := Some (VariantInt (-1));
                 node_is_visual := true; node_children := [] |}
      (Entity_of_int (-1)) = true.
Proof.
  apply (Entity_of_int_is_found_again (-1)); [lia|reflexivity].
Defined.

(** * Shapes *)

Lemma tolower_idempotent (c : Ascii.ascii) : tolower (tolower c) = tolower c.
Proof. destruct c as [[] [] [] [] [] [] [] []]; reflexivity. Qed.

Lemma transform_tolower_idempotent (s : string) :
  transform_tolower (transform_tolower s) = transform_tolower s.
Proof. induction s as [|c s IH]; simpl; [done|]. by rewrite tolower_idempotent, IH. Qed.

Ltac in_list := rewrite !elem_of_cons; tauto.

(** ** Properties of [Shapes::OnMode] *)

(** X20. The mode is read without regard to case.  [OnMode] does the same
    for a string and for the string in small letters, and so for any two
    strings that differ only in the case of their letters: the same event,
    or the same warnings. *)
Theorem Shapes_OnMode_ignores_case (_mode : string) :
  Shapes_OnMode (transform_tolower _mode) = Shapes_OnMode _mode
  ∧ ∀ other, transform_tolower other = transform_tolower _mode →
             Shapes_OnMode other = Shapes_OnMode _mode.
Proof.
  unfold Shapes_OnMode. split.
  - by rewrite transform_tolower_idempotent.
  - by intros other ->.
Qed.

(** X21. What [OnMode] spawns.  [OnMode] sends an event exactly when the
    string in small letters is [box], [sphere] or [cylinder]; the model it
    sends is then named after that shape and its geometry is that shape.
    For any other string it sends nothing and writes five lines of
    warning, the first of which names the string in small letters. *)
Theorem Shapes_OnMode_spawns_the_shape (_mode : string) :
  let shape := transform_tolower _mode in
  match Shapes_OnMode _mode with
  | SpawnPreviewModel sdf =>
      shape ∈ ["box"; "sphere"; "cylinder"]
      ∧ contains ("<model name=" +:+ dq +:+ shape +:+ dq +:+ ">") sdf = true
      ∧ contains ("<geometry><" +:+ shape +:+ ">") sdf = true
  | Warnings lines =>
      (shape ∉ ["box"; "sphere"; "cylinder"])
      ∧ length lines = 5%nat
      ∧ head lines = Some ("Invalid model string " +:+ shape +:+ nl)
  end.
Proof.
  intros shape. unfold Shapes_OnMode. fold shape.
  destruct (decide (shape = "box")) as [->|Hb]; [by split_and!; [in_list|..]|].
  rewrite (bool_decide_false _ Hb).
  destruct (decide (shape = "sphere")) as [->|Hs]; [by split_and!; [in_list|..]|].
  rewrite (bool_decide_false _ Hs).
  destruct (decide (shape = "cylinder")) as [->|Hc]; [by split_and!; [in_list|..]|].
  rewrite (bool_decide_false _ Hc).
  split_and!; [|done..].
  rewrite !elem_of_cons, elem_of_nil. tauto.
Qed.
